(** * spectrometer/processor/main.py: synchronization and merge engine

    A shallow embedding of the processor's driver module.  Python
    dictionaries are finite maps over strings, Python sets are finite
    sets, generators are finite streams that end normally or by raising,
    and the storage handle is threaded explicitly through a small
    state-and-exception monad in which side effects survive a raise. *)

From Stdlib Require Import Ascii.
From stdpp Require Import gmap strings list fin_maps.

(** ** Values, records, exceptions *)

(** The field values a record can hold, as far as this module looks at
    them: absent-like [None], strings, and sets of strings (the branch
    set of a commit). *)
Inductive value :=
  | VNone
  | VStr (s : string)
  | VSet (bs : gset string).

#[global] Instance value_eq_dec : EqDecision value.
Proof. solve_decision. Defined.

(** A record is a Python dict with string keys. *)
Abbreviation record := (gmap string value).

(** The exceptions that can leave the functions modelled here. *)
Inductive exn :=
  | KeyError (k : string)
  | TypeError (msg : string)
  | IndexError (msg : string)
  | AttributeError (msg : string)
  | SourceError (msg : string).

#[global] Instance exn_eq_dec : EqDecision exn.
Proof. solve_decision. Defined.

Inductive result (A : Type) :=
  | Ok (a : A)
  | Raise (e : exn).
Arguments Ok {A} a.
Arguments Raise {A} e.

Definition is_ok {A} (r : result A) : bool :=
  match r with Ok _ => true | Raise _ => false end.

(** ** Generators

    A generator that is consumed once, front to back: it yields a finite
    number of items and then either stops or raises. *)
Inductive stream (A : Type) :=
  | SNil
  | SCons (a : A) (s : stream A)
  | SRaise (e : exn).
Arguments SNil {A}.
Arguments SCons {A} a s.
Arguments SRaise {A} e.

Fixpoint of_list {A} (l : list A) : stream A :=
  match l with
  | [] => SNil
  | a :: l => SCons a (of_list l)
  end.

(** The items a stream yields before it ends. *)
Fixpoint yielded {A} (s : stream A) : list A :=
  match s with
  | SCons a s => a :: yielded s
  | _ => []
  end.

(** How a stream ends: [None] for normal exhaustion. *)
Fixpoint raised {A} (s : stream A) : option exn :=
  match s with
  | SNil => None
  | SCons _ s => raised s
  | SRaise e => Some e
  end.


(** ** _merge_commits

    [original] is mutated in place by the source; the embedding returns
    the flag together with the record [original] denotes afterwards.
    Subscripting a missing key raises [KeyError]; the adapters always
    store a set under ['branches'], anything else is a [TypeError] here.
    Python's [<] on sets is the proper-subset test. *)
Definition get_branches (r : record) : result (gset string) :=
  match r !! "branches" with
  | None => Raise (KeyError "branches")
  | Some (VSet bs) => Ok bs
  | Some _ => Raise (TypeError "branches is not a set")
  end.

Definition _merge_commits (original new : record) : result (bool * record) :=
  match get_branches new with
  | Raise e => Raise e
  | Ok nb =>
    match get_branches original with
    | Raise e => Raise e
    | Ok ob =>
      if bool_decide (nb ⊂ ob) then Ok (false, original)
      else Ok (true, <["branches" := VSet (ob ∪ nb)]> original)
    end
  end.

(** ** _record_typer

    [for record in record_iterator: record['record_type'] = record_type;
    yield record].  An exception of the upstream iterator leaves the
    generator at the point where it is raised. *)
Definition set_record_type (record_type : string) (r : record) : record :=
  <["record_type" := VStr record_type]> r.

Fixpoint _record_typer (record_iterator : stream record) (record_type : string)
  : stream record :=
  match record_iterator with
  | SNil => SNil
  | SCons r s => SCons (set_record_type record_type r) (_record_typer s record_type)
  | SRaise e => SRaise e
  end.

(** ** Storage and the effect monad *)

(** A release descriptor is a dict; only its optional ['branch'] key is
    read here. *)
Abbreviation release := (gmap string string).

(** A repository descriptor.  [repo_releases] is what
    [repo.get('releases')] evaluates to: [None] when the key is absent. *)
Record repo := {
  repo_uri : string;
  repo_releases : option (list release)
}.

(** What the key-value side of the runtime storage holds. *)
Inductive stored :=
  | SToken (s : string)
  | SRepos (l : list repo)
  | SUris (l : list string).

(** The merge handler handed to [set_records]. *)
Inductive policy :=
  | MergeCommits   (* _merge_commits *)
  | MergeRecords   (* utils.merge_records *)
  | NoMerge.       (* no handler *)

(** Observable calls on the collaborators, in the order they complete. *)
Inductive event :=
  | EFetch (uri : string)
  | ESetRecords (p : policy) (items : list record)
  | ESetByKey (key : string) (v : stored)
  | EApplyCorrections (cs : list record)
  | EUpdate.

Record storage := {
  kv : gmap string stored;
  recs : gmap string record;
  trace : list event
}.

Definition M (A : Type) : Type := storage → result A * storage.

#[global] Instance M_ret : MRet M := λ A a st, (Ok a, st).
#[global] Instance M_bind : MBind M := λ A B f m st,
  match m st with
  | (Ok a, st') => f a st'
  | (Raise e, st') => (Raise e, st')
  end.

Definition lift {A} (r : result A) : M A := λ st, (r, st).

Definition emit (e : event) : M unit := λ st,
  (Ok tt, {| kv := kv st; recs := recs st; trace := trace st ++ [e] |}).

Fixpoint for_each {A} (l : list A) (body : A → M unit) : M unit :=
  match l with
  | [] => mret tt
  | a :: l => body a ;; for_each l body
  end.

Definition get_by_key (key : string) : M (option stored) := λ st,
  (Ok (kv st !! key), st).

Definition set_by_key (key : string) (v : stored) : M unit := λ st,
  (Ok tt, {| kv := <[key := v]> (kv st); recs := recs st;
             trace := trace st ++ [ESetByKey key v] |}).

(** Modelled from the spec: [utils.merge_records], the generic merge
    policy of section 4.2: the incoming fields are written over the
    existing ones, the other existing fields are kept; the flag tells
    whether anything changed. *)
Definition merge_records (original new : record) : bool * record :=
  let merged := new ∪ original in
  (negb (bool_decide (merged = original)), merged).

(** Modelled from the spec: the per-record step of the storage's
    [set_records] (section 4.2): a record without a stored namesake is
    inserted verbatim; otherwise the policy decides, and without a policy
    the record is overwritten. *)
Definition merge_one (p : policy) (incoming : record) (db : gmap string record)
  : result (gmap string record) :=
  match incoming !! "primary_key" with
  | Some (VStr k) =>
    match db !! k with
    | None => Ok (<[k := incoming]> db)
    | Some existing =>
      match p with
      | NoMerge => Ok (<[k := incoming]> db)
      | MergeRecords =>
        let '(changed, existing') := merge_records existing incoming in
        Ok (if changed then <[k := existing']> db else db)
      | MergeCommits =>
        match _merge_commits existing incoming with
        | Ok (changed, existing') =>
          Ok (if changed then <[k := existing']> db else db)
        | Raise e => Raise e
        end
      end
    end
  | _ => Raise (KeyError "primary_key")
  end.

Fixpoint merge_stream (p : policy) (s : stream record) (db : gmap string record)
  : result unit * gmap string record :=
  match s with
  | SNil => (Ok tt, db)
  | SRaise e => (Raise e, db)
  | SCons r s =>
    match merge_one p r db with
    | Ok db' => merge_stream p s db'
    | Raise e => (Raise e, db)
    end
  end.

(** Modelled from the spec: the storage's [set_records].  The stream is
    consumed inside the call, so an exception of the adapter's lazy log
    surfaces here; what was merged before it stays merged.  The call is
    recorded in the trace when it returns. *)
Definition set_records (s : stream record) (p : policy) : M unit := λ st,
  match merge_stream p s (recs st) with
  | (Ok _, db) =>
    (Ok tt, {| kv := kv st; recs := db;
               trace := trace st ++ [ESetRecords p (yielded s)] |})
  | (Raise e, db) =>
    (Raise e, {| kv := kv st; recs := db; trace := trace st |})
  end.

(** What an adapter that was handed the storage has written to its
    key-value side. *)
Definition adapter_writes (kv' : gmap string stored) : M unit := λ st,
  (Ok tt, {| kv := kv'; recs := recs st; trace := trace st |}).

(** ** Collaborators

    The adapters, the record processor and the helpers of [utils] that
    this module calls but does not define.  The mailing-list adapter is
    handed the storage and keeps its resumption state there: [mls_log]
    gives the stream of [mls.log(uri, storage)] together with the
    key-value side of the storage as the adapter leaves it.  The adapter
    writes while its stream is being consumed; its writes are taken
    together here, which gives the same storage whenever the stream is
    consumed to its end, since merging records does not touch the
    key-value side. *)
Record collaborators := {
  quote_plus : string → string;
  vcs_fetch : repo → result unit;
  rcs_setup : repo → result unit;
  vcs_log : repo → string → option stored → stream record;
  vcs_get_last_id : repo → string → result string;
  rcs_log : repo → string → option stored → stream record;
  rcs_get_last_id : repo → string → result string;
  rp_process : stream record → stream record;
  rp_update : result unit;
  mls_log : string → storage → stream record * gmap string stored;
  read_json_from_uri : string → option (gmap string (list record))
}.

(** Modelled from the spec: the storage's [apply_corrections]: a
    correction whose ['primary_key'] names a stored record is written
    over that record's fields; any other correction changes nothing. *)
Definition apply_one (db : gmap string record) (c : record) : gmap string record :=
  match c !! "primary_key" with
  | Some (VStr k) =>
    match db !! k with
    | Some r => <[k := c ∪ r]> db
    | None => db
    end
  | _ => db
  end.

Definition storage_apply_corrections (cs : list record) : M unit := λ st,
  (Ok tt, {| kv := kv st; recs := foldl apply_one (recs st) cs;
             trace := trace st ++ [EApplyCorrections cs] |}).

(** Modelled from the spec: [utils.load_repos], the stored list of
    repositories, empty when none is stored. *)
Definition load_repos : M (list repo) :=
  v ← get_by_key "repos";
  match v with
  | None => mret []
  | Some (SRepos l) => mret l
  | Some _ => lift (Raise (TypeError "repos"))
  end.

(** [runtime_storage_inst.get_by_key('mail_lists') or []] *)
Definition load_mail_lists : M (list string) :=
  v ← get_by_key "mail_lists";
  match v with
  | None => mret []
  | Some (SUris l) => mret l
  | Some _ => lift (Raise (TypeError "mail_lists"))
  end.

(** Lines 89-92 of [process_repo]: the branches to synchronize.
    Iterating over [None] raises. *)
Definition add_release_branch (branches : gset string) (release : release)
  : gset string :=
  match release !! "branch" with
  | Some b => branches ∪ {[ b ]}
  | None => branches
  end.

Definition resolve_branches (r : repo) : result (gset string) :=
  match repo_releases r with
  | None => Raise (TypeError "'NoneType' object is not iterable")
  | Some releases => Ok (foldl add_release_branch {[ "master" ]} releases)
  end.

Section Processor.
Context (C : collaborators).

Definition vcs_key (uri branch : string) : string :=
  "vcs:" +:+ (quote_plus C uri +:+ ":" +:+ branch).

Definition rcs_key (uri branch : string) : string :=
  "rcs:" +:+ (quote_plus C uri +:+ ":" +:+ branch).

(** The commit half of the loop body, lines 97-108. *)
Definition commit_phase (r : repo) (branch : string) : M unit :=
  let key := vcs_key (repo_uri r) branch in
  last_id ← get_by_key key;
  let commit_iterator := vcs_log C r branch last_id in
  let commit_iterator_typed := _record_typer commit_iterator "commit" in
  let processed_commit_iterator := rp_process C commit_iterator_typed in
  set_records processed_commit_iterator MergeCommits ;;
  last_id ← lift (vcs_get_last_id C r branch);
  set_by_key key (SToken last_id).

(** The review half of the loop body, lines 112-123. *)
Definition review_phase (r : repo) (branch : string) : M unit :=
  let key := rcs_key (repo_uri r) branch in
  last_id ← get_by_key key;
  let review_iterator := rcs_log C r branch last_id in
  let review_iterator_typed := _record_typer review_iterator "review" in
  let processed_review_iterator := rp_process C review_iterator_typed in
  set_records processed_review_iterator MergeRecords ;;
  last_id ← lift (rcs_get_last_id C r branch);
  set_by_key key (SToken last_id).

Definition process_branch (r : repo) (branch : string) : M unit :=
  commit_phase r branch ;; review_phase r branch.

(** [process_repo].  The loop walks the branch set in the order
    [elements] lists it. *)
Definition process_repo (r : repo) : M unit :=
  lift (vcs_fetch C r) ;;
  emit (EFetch (repo_uri r)) ;;
  lift (rcs_setup C r) ;;
  branches ← lift (resolve_branches r);
  for_each (elements branches) (process_branch r).

Definition process_mail_list (uri : string) : M unit :=
  log ← (λ st, (Ok (mls_log C uri st), st));
  adapter_writes log.2 ;;
  let mail_iterator := log.1 in
  let mail_iterator_typed := _record_typer mail_iterator "email" in
  let processed_mail_iterator := rp_process C mail_iterator_typed in
  set_records processed_mail_iterator NoMerge.

Definition update_records : M unit :=
  repos ← load_repos;
  for_each repos process_repo ;;
  mail_lists ← load_mail_lists;
  for_each mail_lists process_mail_list ;;
  lift (rp_update C) ;;
  emit EUpdate.

(** [apply_corrections].  [not corrections] holds for [None] and for
    the empty document; subscripting a document without the
    ['corrections'] key raises. *)
Definition keep_correction (valid : list record) (c : record) : list record :=
  if bool_decide (is_Some (c !! "primary_key")) then valid ++ [c] else valid.

Definition valid_corrections (cs : list record) : list record :=
  foldl keep_correction [] cs.

Definition apply_corrections (uri : string) : M unit :=
  match read_json_from_uri C uri with
  | None => mret tt
  | Some corrections =>
    if bool_decide (corrections = ∅) then mret tt
    else
      match corrections !! "corrections" with
      | None => lift (Raise (KeyError "corrections"))
      | Some cs => storage_apply_corrections (valid_corrections cs)
      end
  end.

End Processor.

(** ** Taxonomy builder *)

(** [str.lower] on ASCII letters. *)
Definition lower_ascii (c : ascii) : ascii :=
  let n := nat_of_ascii c in
  if (65 <=? n)%nat && (n <=? 90)%nat then ascii_of_nat (n + 32) else c.

Fixpoint lower (s : string) : string :=
  match s with
  | EmptyString => EmptyString
  | String c s => String (lower_ascii c) (lower s)
  end.

(** [s.split('/')] *)
Fixpoint split_slash (s : string) : list string :=
  match s with
  | EmptyString => [EmptyString]
  | String c s =>
    if bool_decide (c = "/"%char) then EmptyString :: split_slash s
    else match split_slash s with
         | h :: t => String c h :: t
         | [] => [String c EmptyString]
         end
  end.

(** A module group: a dict with the keys ['modules'], ['releases'] (a
    [defaultdict(list)]), and, once assigned, ['tag'],
    ['module_group_name'] and ['id']. *)
Record group := {
  g_modules : list string;
  g_releases : gmap string (list string);
  g_tag : option string;
  g_name : option string;
  g_id : option string
}.

Definition fresh_group : group :=
  {| g_modules := []; g_releases := ∅; g_tag := None; g_name := None;
     g_id := None |}.

Definition set_tag (t : string) (g : group) : group :=
  {| g_modules := g_modules g; g_releases := g_releases g; g_tag := Some t;
     g_name := g_name g; g_id := g_id g |}.

Definition set_name (n : string) (g : group) : group :=
  {| g_modules := g_modules g; g_releases := g_releases g; g_tag := g_tag g;
     g_name := Some n; g_id := g_id g |}.

Definition set_id (i : string) (g : group) : group :=
  {| g_modules := g_modules g; g_releases := g_releases g; g_tag := g_tag g;
     g_name := g_name g; g_id := Some i |}.

Definition add_module (m : string) (g : group) : group :=
  {| g_modules := g_modules g ++ [m]; g_releases := g_releases g;
     g_tag := g_tag g; g_name := g_name g; g_id := g_id g |}.

(** [group['releases'][release_name].append(m)] *)
Definition add_release (release_name m : string) (g : group) : group :=
  {| g_modules := g_modules g;
     g_releases :=
       <[release_name := default [] (g_releases g !! release_name) ++ [m]]>
         (g_releases g);
     g_tag := g_tag g; g_name := g_name g; g_id := g_id g |}.

(** [module_groups[k]] followed by an in-place update of the group: the
    [defaultdict] creates the group when the key is new. *)
Definition touch (k : string) (f : group → group) (mg : gmap string group)
  : gmap string group :=
  <[k := f (default fresh_group (mg !! k))]> mg.

(** An entry of a program's ['projects'] list. *)
Abbreviation module_entry := (gmap string string).

(** A program of the descriptor feed: the optional ['codename'] and what
    [info['projects']] finds. *)
Record info := {
  info_codename : option string;
  info_projects : option (list module_entry)
}.

Definition RELEASE_TAGS : list string :=
  ["bootstrapped-since"; "incubated-since"; "mature-since"; "core-since"].

(** The [if]/[elif] chain of lines 223-230. *)
Definition next_project_type (module : module_entry)
  (project_type release_name : string) : string :=
  if bool_decide (module !! "bootstrapped-since" = Some release_name)
  then "official-bootstrap"
  else if bool_decide (module !! "incubated-since" = Some release_name)
  then "official-incubation"
  else if bool_decide (module !! "mature-since" = Some release_name)
  then "official-mature"
  else if bool_decide (module !! "core-since" = Some release_name)
  then "official-core"
  else project_type.

(** The loop of lines 221-233; [project_type] persists across rounds. *)
Fixpoint walk_releases (module : module_entry) (module_name project_type : string)
  (releases : list string) (mg : gmap string group) : gmap string group :=
  match releases with
  | [] => mg
  | release_name :: releases =>
    let project_type := next_project_type module project_type release_name in
    walk_releases module module_name project_type releases
      (touch project_type (add_release release_name module_name) mg)
  end.

Definition has_release_tag (module : module_entry) : bool :=
  existsb (λ key, bool_decide (is_Some (module !! key))) RELEASE_TAGS.

(** The body of the loop over [info['projects']], lines 215-235. *)
Definition process_module (group_id : string) (release_names : list string)
  (mg : gmap string group) (module : module_entry) : result (gmap string group) :=
  match module !! "repo" with
  | None => Raise (KeyError "repo")
  | Some repo_path =>
    match split_slash repo_path !! 1%nat with
    | None => Raise (IndexError "list index out of range")
    | Some module_name =>
      let mg := touch group_id (add_module module_name) mg in
      if has_release_tag module then
        Ok (walk_releases module module_name "official-other"
              (map lower release_names) mg)
      else
        Ok (touch "other" (add_module module_name) mg)
    end
  end.

Fixpoint process_modules (group_id : string) (release_names : list string)
  (modules : list module_entry) (mg : gmap string group)
  : result (gmap string group) :=
  match modules with
  | [] => Ok mg
  | module :: modules =>
    match process_module group_id release_names mg module with
    | Ok mg => process_modules group_id release_names modules mg
    | Raise e => Raise e
    end
  end.

(** The body of the loop over the feed, lines 206-235. *)
Definition program_group_id (name : string) (i : info) : string :=
  match info_codename i with
  | Some codename => lower codename +:+ "-group"
  | None => lower name
  end.

Definition program_group_name (name : string) (i : info) : string :=
  match info_codename i with
  | Some codename => codename +:+ " (" +:+ name +:+ ")"
  | None => name
  end.

Definition process_program (release_names : list string)
  (mg : gmap string group) (name : string) (i : info) : result (gmap string group) :=
  let group_id := program_group_id name i in
  let name := program_group_name name i in
  let mg := touch group_id (set_name name) mg in
  let mg := touch group_id (set_tag "program") mg in
  match info_projects i with
  | None => Raise (KeyError "projects")
  | Some modules => process_modules group_id release_names modules mg
  end.

Fixpoint process_programs (release_names : list string)
  (content : list (string * info)) (mg : gmap string group)
  : result (gmap string group) :=
  match content with
  | [] => Ok mg
  | (name, i) :: content =>
    match process_program release_names mg name i with
    | Ok mg => process_programs release_names content mg
    | Raise e => Raise e
    end
  end.

(** Lines 188-199: the four fixed groups. *)
Definition official (k : string) (mg : gmap string group) : gmap string group :=
  touch k (set_name k) (touch k (set_tag "project_type") mg).

Definition initial_groups : gmap string group :=
  official "official-core"
    (official "official-mature"
      (official "official-incubation"
        (official "official-bootstrap" ∅))).

(** Lines 238-239. *)
Definition set_ids (mg : gmap string group) : gmap string group :=
  map_imap (λ group_id g, Some (set_id group_id g)) mg.

(** [_read_official_programs_yaml], from the parsed document on:
    [content] is what [yaml.safe_load] returned, [None] for an empty
    document, otherwise the programs in the order the dict iterates. *)
Definition _read_official_programs_yaml
  (content : option (list (string * info))) (release_names : list string)
  : result (gmap string group) :=
  match content with
  | None => Raise (AttributeError "'NoneType' object has no attribute 'items'")
  | Some content =>
    match process_programs release_names content initial_groups with
    | Ok mg => Ok (set_ids mg)
    | Raise e => Raise e
    end
  end.

(** ** Reading the trace *)

Section Ordering.
Context (C : collaborators) (r : repo).

(** The typed and enriched streams handed to [set_records] for a
    branch, given the cursor read at the start of the phase. *)
Definition commit_stream (branch : string) (last_id : option stored)
  : stream record :=
  rp_process C (_record_typer (vcs_log C r branch last_id) "commit").

Definition review_stream (branch : string) (last_id : option stored)
  : stream record :=
  rp_process C (_record_typer (rcs_log C r branch last_id) "review").

(** [merged_for key e]: [e] is the return of the [set_records] call
    that has consumed, to its normal end, the stream of the branch
    whose cursor lives under [key]. *)
Definition merged_for (key : string) (e : event) : Prop :=
  ∃ branch last_id,
    (key = vcs_key C (repo_uri r) branch ∧
     raised (commit_stream branch last_id) = None ∧
     e = ESetRecords MergeCommits (yielded (commit_stream branch last_id)))
    ∨
    (key = rcs_key C (repo_uri r) branch ∧
     raised (review_stream branch last_id) = None ∧
     e = ESetRecords MergeRecords (yielded (review_stream branch last_id))).

End Ordering.

(** Every cursor write in [l] comes right after an event that justifies
    it; [prev] is the event before [l], if any. *)
Fixpoint cursor_follows_merge (J : string → event → Prop)
  (prev : option event) (l : list event) : Prop :=
  match l with
  | [] => True
  | e :: l =>
    match e with
    | ESetByKey key _ => ∃ p, prev = Some p ∧ J key p
    | _ => True
    end ∧ cursor_follows_merge J (Some e) l
  end.

(** A computation whose trace segment is in order whatever came before. *)
Definition tidy (J : string → event → Prop) {A} (m : M A) : Prop :=
  ∀ st, ∃ seg,
    trace (m st).2 = trace st ++ seg ∧
    ∀ prev, cursor_follows_merge J prev seg.

(** The isolation property of an update cycle: every stored repository
    whose own pass succeeds has its master commit cursor set once the
    cycle is over, whatever happened to its siblings. *)
Definition siblings_unaffected (C : collaborators) (st : storage) : Prop :=
  ∀ repos b,
    kv st !! "repos" = Some (SRepos repos) → b ∈ repos →
    (process_repo C b st).1 = Ok tt →
    ∃ id, kv (update_records C st).2 !! vcs_key C (repo_uri b) "master"
          = Some (SToken id).

(** ** Sample collaborators and inputs *)

(** A commit record as the VCS adapter builds it, reduced to the two
    fields the merge looks at. *)
Definition commit_on (key : string) (branches : gset string) : record :=
  {[ "primary_key" := VStr key; "branches" := VSet branches ]}.

Definition sample_corrections : list record :=
  [ {[ "primary_key" := VStr "c0ffee"; "author" := VStr "jane" ]};
    {[ "author" := VStr "nobody" ]};
    {[ "primary_key" := VStr "beef"; "company" := VStr "acme" ]} ].

(** Adapters over a quiet upstream: one commit per branch, no reviews;
    the repository ["git://a"] cannot be fetched under [flaky]. *)
Definition steady : collaborators := {|
  quote_plus := λ uri, uri;
  vcs_fetch := λ _, Ok tt;
  rcs_setup := λ _, Ok tt;
  vcs_log := λ _ branch _, SCons (commit_on "c0ffee" {[ branch ]}) SNil;
  vcs_get_last_id := λ _ branch, Ok ("head-" +:+ branch);
  rcs_log := λ _ _ _, SNil;
  rcs_get_last_id := λ _ branch, Ok ("review-" +:+ branch);
  rp_process := λ s, s;
  rp_update := Ok tt;
  mls_log := λ _ st, (SNil, kv st);
  read_json_from_uri := λ uri,
    if bool_decide (uri = "file:///corrections.json")
    then Some {[ "corrections" := sample_corrections ]}
    else None
|}.

Definition idle : collaborators := {|
  quote_plus := quote_plus steady;
  vcs_fetch := vcs_fetch steady;
  rcs_setup := rcs_setup steady;
  vcs_log := λ _ _ _, SNil;
  vcs_get_last_id := vcs_get_last_id steady;
  rcs_log := rcs_log steady;
  rcs_get_last_id := rcs_get_last_id steady;
  rp_process := rp_process steady;
  rp_update := rp_update steady;
  mls_log := mls_log steady;
  read_json_from_uri := read_json_from_uri steady
|}.

Definition flaky : collaborators := {|
  quote_plus := quote_plus steady;
  vcs_fetch := λ r,
    if bool_decide (repo_uri r = "git://a")
    then Raise (SourceError "fetch failed") else Ok tt;
  rcs_setup := rcs_setup steady;
  vcs_log := vcs_log steady;
  vcs_get_last_id := vcs_get_last_id steady;
  rcs_log := rcs_log steady;
  rcs_get_last_id := rcs_get_last_id steady;
  rp_process := rp_process steady;
  rp_update := rp_update steady;
  mls_log := mls_log steady;
  read_json_from_uri := read_json_from_uri steady
|}.

Definition repo_a : repo :=
  {| repo_uri := "git://a"; repo_releases := Some [] |}.

Definition repo_b : repo :=
  {| repo_uri := "git://b";
     repo_releases := Some [ {[ "branch" := "stable/kilo" ]};
                             {[ "release_name" := "Juno" ]} ] |}.

(** A repository descriptor without the ['releases'] key. *)
Definition repo_bare : repo :=
  {| repo_uri := "git://bare"; repo_releases := None |}.

Definition blank : storage := {| kv := ∅; recs := ∅; trace := [] |}.

Definition two_repos : storage :=
  {| kv := {[ "repos" := SRepos [repo_a; repo_b];
              "mail_lists" := SUris ["http://lists/dev"] ]};
     recs := ∅; trace := [] |}.

(** As [steady], with a mailing-list archive that cannot be read. *)
Definition archive_down : collaborators := {|
  quote_plus := quote_plus steady;
  vcs_fetch := vcs_fetch steady;
  rcs_setup := rcs_setup steady;
  vcs_log := vcs_log steady;
  vcs_get_last_id := vcs_get_last_id steady;
  rcs_log := rcs_log steady;
  rcs_get_last_id := rcs_get_last_id steady;
  rp_process := rp_process steady;
  rp_update := rp_update steady;
  mls_log := λ _ st, (SRaise (SourceError "archive down"), kv st);
  read_json_from_uri := read_json_from_uri steady
|}.

(** ** Reading the taxonomy *)

(** The release bucket of a group, empty when group or bucket is not
    there. *)
Definition bucket (mg : gmap string group) (group_id release_name : string)
  : list string :=
  default [] (mg !! group_id ≫= λ g, g_releases g !! release_name).

Definition modules_of (mg : gmap string group) (group_id : string) : list string :=
  default [] (g_modules <$> mg !! group_id).

(** [m] is added to the bucket when it is one of [places]. *)
Definition lands_in (places : list (string * string))
  (group_id release_name m : string) : list string :=
  if bool_decide ((group_id, release_name) ∈ places) then [m] else [].

Definition official_ids : list string :=
  ["official-bootstrap"; "official-incubation"; "official-mature";
   "official-core"].

(** The group under [k] is there and its tag satisfies [T]. *)
Definition tagged (T : option string → Prop) (k : string)
  (mg : gmap string group) : Prop :=
  ∃ g, mg !! k = Some g ∧ T (g_tag g).

(** The four fixed groups are there with tag ['project_type']. *)
Definition official_groups_tagged (mg : gmap string group) : Prop :=
  ∀ k, k ∈ official_ids → tagged (λ t, t = Some "project_type") k mg.

(** A feed with one program, without a codename, named like one of the
    fixed groups. *)
Definition feed_named_official_core : list (string * info) :=
  [("Official-Core", {| info_codename := None; info_projects := Some [] |})].


Definition nova_entry : module_entry :=
  {[ "repo" := "openstack/nova"; "mature-since" := "kilo" ]}.

Definition plain_entry : module_entry :=
  {[ "repo" := "openstack/sandbox" ]}.

Definition compute_feed (module : module_entry) : list (string * info) :=
  [("Compute", {| info_codename := Some "Nova";
                  info_projects := Some [module] |})].


(** ** Repeated merges of one commit

    What the storage does to one stored commit when the same identity
    comes in several times, through [_merge_commits] each time. *)
Fixpoint merge_all (original : record) (news : list record) : result record :=
  match news with
  | [] => Ok original
  | new :: news =>
    match _merge_commits original new with
    | Ok (_, original) => merge_all original news
    | Raise e => Raise e
    end
  end.

(** The branch set of a record, empty when there is none. *)
Definition branches_of (r : record) : gset string :=
  match get_branches r with
  | Ok bs => bs
  | Raise _ => ∅
  end.

(** As [steady], with a mailing-list adapter that yields one mail and
    notes in the storage how far it has read the archive. *)
Definition archiving : collaborators := {|
  quote_plus := quote_plus steady;
  vcs_fetch := vcs_fetch steady;
  rcs_setup := rcs_setup steady;
  vcs_log := vcs_log steady;
  vcs_get_last_id := vcs_get_last_id steady;
  rcs_log := rcs_log steady;
  rcs_get_last_id := rcs_get_last_id steady;
  rp_process := rp_process steady;
  rp_update := rp_update steady;
  mls_log := λ uri st,
    (SCons {[ "primary_key" := VStr "mail-1" ]} SNil,
     <["mail_link:" +:+ uri := SToken "2015-June"]> (kv st));
  read_json_from_uri := read_json_from_uri steady
|}.

(** As [steady], with a commit log that breaks after its first record,
    and with a review system that cannot be set up. *)
Definition broken_log : collaborators := {|
  quote_plus := quote_plus steady;
  vcs_fetch := vcs_fetch steady;
  rcs_setup := rcs_setup steady;
  vcs_log := λ _ branch _,
    SCons (commit_on "c0ffee" {[ branch ]}) (SRaise (SourceError "git log failed"));
  vcs_get_last_id := vcs_get_last_id steady;
  rcs_log := rcs_log steady;
  rcs_get_last_id := rcs_get_last_id steady;
  rp_process := rp_process steady;
  rp_update := rp_update steady;
  mls_log := mls_log steady;
  read_json_from_uri := read_json_from_uri steady
|}.

Definition no_review : collaborators := {|
  quote_plus := quote_plus steady;
  vcs_fetch := vcs_fetch steady;
  rcs_setup := λ _, Raise (SourceError "ssh refused");
  vcs_log := vcs_log steady;
  vcs_get_last_id := vcs_get_last_id steady;
  rcs_log := rcs_log steady;
  rcs_get_last_id := rcs_get_last_id steady;
  rp_process := rp_process steady;
  rp_update := rp_update steady;
  mls_log := mls_log steady;
  read_json_from_uri := read_json_from_uri steady
|}.

(** The repositories fetched, in the order of the trace. *)
Definition fetches (l : list event) : list string :=
  omap (λ e, match e with EFetch uri => Some uri | _ => None end) l.

(** A computation that neither fetches a repository nor calls the
    record processor's [update]. *)
Definition silent {A} (m : M A) : Prop :=
  ∀ st, ∃ seg,
    trace (m st).2 = trace st ++ seg ∧ fetches seg = [] ∧ EUpdate ∉ seg.

(** A corrections document that has entries but no ['corrections'] key. *)
Definition odd_document : collaborators := {|
  quote_plus := quote_plus steady;
  vcs_fetch := vcs_fetch steady;
  rcs_setup := rcs_setup steady;
  vcs_log := vcs_log steady;
  vcs_get_last_id := vcs_get_last_id steady;
  rcs_log := rcs_log steady;
  rcs_get_last_id := rcs_get_last_id steady;
  rp_process := rp_process steady;
  rp_update := rp_update steady;
  mls_log := mls_log steady;
  read_json_from_uri := λ uri,
    if bool_decide (uri = "file:///empty.json") then Some ∅
    else Some {[ "fixes" := sample_corrections ]}
|}.

(** ** Reading the feed *)

(** The short name line 215 extracts from a module entry, when there is
    one: the second piece of ['repo'] cut at the slashes. *)
Definition module_name_of (module : module_entry) : option string :=
  module !! "repo" ≫= λ path, split_slash path !! 1%nat.

(** What the function needs of a program: a ['projects'] list whose
    entries all have a short name. *)
Definition well_formed_program (p : string * info) : Prop :=
  ∃ modules, info_projects p.2 = Some modules ∧
             Forall (λ m, is_Some (module_name_of m)) modules.

Fixpoint has_slash (s : string) : bool :=
  match s with
  | EmptyString => false
  | String c s => bool_decide (c = "/"%char) || has_slash s
  end.

(** The pairs of project type and release name under which line 232
    files a module, in the order of the walk. *)
Fixpoint placements (module : module_entry) (project_type : string)
  (releases : list string) : list (string * string) :=
  match releases with
  | [] => []
  | release_name :: releases =>
    let project_type := next_project_type module project_type release_name in
    (project_type, release_name) :: placements module project_type releases
  end.


(** The status fields and the fixed group each one leads to. *)
Definition status_groups : list (string * string) :=
  [("bootstrapped-since", "official-bootstrap");
   ("incubated-since", "official-incubation");
   ("mature-since", "official-mature");
   ("core-since", "official-core")].

Definition glance_entry : module_entry :=
  {[ "repo" := "openstack/glance"; "incubated-since" := "juno" ]}.

(** ** Process discovery

    What [psutil] shows: the list of pids and, for each pid, the name of
    the process or the exception that looking it up raises. *)
Record psutil := {
  get_pid_list : list N;
  process_name : N → result string
}.

(** The body of the loop of [get_pids]: the [try] swallows whatever the
    lookup raises. *)
Definition note_pid (ps : psutil) (result : gset N) (pid : N) : gset N :=
  match process_name ps pid with
  | Ok name => if bool_decide (name = "uwsgi") then result ∪ {[ pid ]} else result
  | Raise _ => result
  end.

Definition get_pids (ps : psutil) : gset N :=
  foldl (note_pid ps) ∅ (get_pid_list ps).

(** [update_pids]: the argument of the storage's [active_pids] call, or
    [None] when the call is not made. *)
Definition update_pids (ps : psutil) : option (gset N) :=
  let pids := get_pids ps in
  if bool_decide (pids = ∅) then None else Some pids.

Definition sample_processes : psutil := {|
  get_pid_list := [1; 17; 42; 99]%N;
  process_name := λ pid,
    if bool_decide (pid = 17%N) then Ok "uwsgi"
    else if bool_decide (pid = 42%N) then Raise (SourceError "NoSuchProcess")
    else if bool_decide (pid = 99%N) then Ok "uwsgi"
    else Ok "init"
|}.

(** ** Program list

    [process_program_list], from the values it reads out of the storage
    to the value it stores under ['module_groups'].  [persisted] is what
    is stored under ['module_groups'], [releases] the ['release_name']s
    of what is stored under ['releases'], [modules] the ['module'] of
    every stored repository; [make_module_group] stands for
    [utils.make_module_group(_, tag='module')]. *)
Definition register_module (make_module_group : string → group)
  (module_groups : gmap string group) (module : string) : gmap string group :=
  <[module := make_module_group module]> module_groups.

Definition process_program_list (make_module_group : string → group)
  (persisted : option (gmap string group)) (releases : option (list string))
  (content : option (list (string * info))) (modules : list string)
  : result (gmap string group) :=
  let module_groups := default ∅ persisted in
  match releases with
  | None => Raise (TypeError "'NoneType' object is not subscriptable")
  | Some releases =>
    let release_names := lower <$> drop 1 releases in
    match _read_official_programs_yaml content release_names with
    | Raise e => Raise e
    | Ok official_module_groups =>
      let module_groups := official_module_groups ∪ module_groups in
      let module_groups :=
        foldl (register_module make_module_group) module_groups modules in
      Ok (<["unknown" := make_module_group "unknown"]> module_groups)
    end
  end.

Definition module_group_of (module : string) : group :=
  {| g_modules := [module]; g_releases := ∅; g_tag := Some "module";
     g_name := Some module; g_id := Some module |}.

(** ** Member lists

    [mps_log uri st days] stands for [mps.get_mps(uri).log(uri, storage,
    days)], which raises when no adapter serves the uri; [days] is
    [cfg.CONF.days_to_update_members].  Like the mailing-list adapter,
    this one is handed the storage and keeps its resumption state
    there: with the stream comes the key-value side of the storage as
    the adapter leaves it. *)
Section Members.
Context (C : collaborators).
Context (mps_log : string → storage → nat
                   → result (stream record * gmap string stored)).
Context (days_to_update_members : nat).

Definition process_member_list (uri : string) : M unit :=
  log ← (λ st, (mps_log uri st days_to_update_members, st));
  adapter_writes log.2 ;;
  let member_iterator := log.1 in
  let member_iterator_typed := _record_typer member_iterator "member" in
  let processed_member_iterator := rp_process C member_iterator_typed in
  set_records processed_member_iterator NoMerge.

(** [runtime_storage_inst.get_by_key('member_lists') or []] *)
Definition load_member_lists : M (list string) :=
  v ← get_by_key "member_lists";
  match v with
  | None => mret []
  | Some (SUris l) => mret l
  | Some _ => lift (Raise (TypeError "member_lists"))
  end.

Definition update_members : M unit :=
  member_lists ← load_member_lists;
  for_each member_lists process_member_list.

End Members.


Definition roster (uri : string) (st : storage) (days : nat)
  : result (stream record * gmap string stored) :=
  if bool_decide (uri = "http://members/closed")
  then Raise (SourceError "no adapter")
  else Ok (SCons {[ "primary_key" := VStr uri ]} SNil, kv st).

(** A member-list adapter that notes in the storage how far it got. *)
Definition tracking_roster (uri : string) (st : storage) (days : nat)
  : result (stream record * gmap string stored) :=
  Ok (SCons {[ "primary_key" := VStr uri ]} SNil,
      <["members_seen:" +:+ uri := SToken "42"]> (kv st)).

Definition two_rosters : storage :=
  {| kv := {[ "member_lists" := SUris ["http://members/a"; "http://members/b"] ]};
     recs := ∅; trace := [] |}.

(** The keys written by [set_by_key], in the order of the trace. *)
Definition cursor_keys (l : list event) : list string :=
  omap (λ e, match e with ESetByKey key _ => Some key | _ => None end) l.

(** ** The entry point

    [main], after configuration and logging are set up.  Two passes
    work on stored values that the key-value model above does not
    hold and are taken as they come: [default_data_process] for
    [default_data_processor.process] and [program_list_pass] for
    [process_program_list] run against the storage.  [update_pids] only
    feeds the storage's liveness bookkeeping and leaves no mark here.
    The result is [true] for the exit value [not 0] and [false] for a
    plain return. *)
Section Main.
Context (C : collaborators).
Context (mps_log : string → storage → nat
                   → result (stream record * gmap string stored)).
Context (days_to_update_members : nat).
Context (default_data_uri corrections_uri now : string).
Context (default_data_process : gmap string (list record) → M unit).
Context (program_list_pass : M unit).

Definition main : M bool :=
  match read_json_from_uri C default_data_uri with
  | None => mret true
  | Some default_data =>
    if bool_decide (default_data = ∅) then mret true
    else
      default_data_process default_data ;;
      program_list_pass ;;
      update_records C ;;
      apply_corrections C corrections_uri ;;
      update_members C mps_log days_to_update_members ;;
      set_by_key "runtime_storage_update_time" (SToken now) ;;
      mret false
  end.

End Main.

(** Collaborators whose default data is in place. *)
Definition furnished : collaborators := {|
  quote_plus := quote_plus steady;
  vcs_fetch := vcs_fetch steady;
  rcs_setup := rcs_setup steady;
  vcs_log := vcs_log steady;
  vcs_get_last_id := vcs_get_last_id steady;
  rcs_log := rcs_log steady;
  rcs_get_last_id := rcs_get_last_id steady;
  rp_process := rp_process steady;
  rp_update := rp_update steady;
  mls_log := mls_log steady;
  read_json_from_uri := λ uri,
    if bool_decide (uri = "file:///default_data.json")
    then Some {[ "repos" := [] ]}
    else read_json_from_uri steady uri
|}.

Definition furnished_flaky : collaborators := {|
  quote_plus := quote_plus furnished;
  vcs_fetch := vcs_fetch flaky;
  rcs_setup := rcs_setup furnished;
  vcs_log := vcs_log furnished;
  vcs_get_last_id := vcs_get_last_id furnished;
  rcs_log := rcs_log furnished;
  rcs_get_last_id := rcs_get_last_id furnished;
  rp_process := rp_process furnished;
  rp_update := rp_update furnished;
  mls_log := mls_log furnished;
  read_json_from_uri := read_json_from_uri furnished
|}.

(** * Properties *)

(** ** Commit merge policy *)

Lemma get_branches_commit_on key bs : get_branches (commit_on key bs) = Ok bs.
Proof. reflexivity. Qed.

Lemma get_branches_Ok r bs :
  get_branches r = Ok bs → r !! "branches" = Some (VSet bs).
Proof.
  unfold get_branches. destruct (r !! "branches") as [[| |bs']|]; congruence.
Qed.

Lemma get_branches_insert r bs :
  get_branches (<["branches" := VSet bs]> r) = Ok bs.
Proof. unfold get_branches. by rewrite lookup_insert_eq. Qed.

(** A proper subset is reported as "no update" and nothing is touched. *)
Lemma _merge_commits_proper_subset original new ob nb :
  get_branches original = Ok ob → get_branches new = Ok nb → nb ⊂ ob →
  _merge_commits original new = Ok (false, original).
Proof.
  intros Ho Hn Hsub. unfold _merge_commits. rewrite Hn, Ho.
  by rewrite bool_decide_eq_true_2.
Qed.

(** Whenever the incoming set is contained in the stored one, the stored
    record comes out as it went in, whatever the flag says. *)
Lemma _merge_commits_subset_keeps original new ob nb :
  get_branches original = Ok ob → get_branches new = Ok nb → nb ⊆ ob →
  ∃ flag, _merge_commits original new = Ok (flag, original).
Proof.
  intros Ho Hn Hsub. unfold _merge_commits. rewrite Hn, Ho.
  case_bool_decide; [by eexists|].
  exists true. do 2 f_equal.
  replace (ob ∪ nb) with ob by set_solver.
  apply insert_id. by apply get_branches_Ok.
Qed.

(** Equal branch sets are not a proper subset: the merge reports an
    update. *)
Lemma _merge_commits_same_set original new bs :
  get_branches original = Ok bs → get_branches new = Ok bs →
  _merge_commits original new = Ok (true, original).
Proof.
  intros Ho Hn. unfold _merge_commits. rewrite Hn, Ho.
  rewrite bool_decide_eq_false_2 by set_solver.
  do 2 f_equal. replace (bs ∪ bs) with bs by set_solver.
  apply insert_id. by apply get_branches_Ok.
Qed.

(** C2, at the input on which the code departs from it: a commit
    re-ingested with the very branch set that is stored.  The incoming
    set is a subset of the stored one and the stored record is left as
    it was, yet [_merge_commits] returns [True], the signal on which the
    storage writes the record back. *)
Theorem C2_same_branch_set_signals_update :
  let stored_commit := commit_on "c0ffee" {[ "master" ]} in
  let incoming := commit_on "c0ffee" {[ "master" ]} in
  ({[ "master" ]} : gset string) ⊆ {[ "master" ]} ∧
  _merge_commits stored_commit incoming = Ok (true, stored_commit).
Proof. split; [set_solver | reflexivity]. Qed.

(** C3: after the merge the stored branch set is the union of the two
    sets; it contains the set stored before; and merging the same
    incoming record once more changes nothing. *)
Theorem C3_merge_commits_union original new ob nb :
  get_branches original = Ok ob → get_branches new = Ok nb →
  ∃ flag original',
    _merge_commits original new = Ok (flag, original') ∧
    get_branches original' = Ok (ob ∪ nb) ∧
    ob ⊆ ob ∪ nb ∧
    (∀ k, k ≠ "branches" → original' !! k = original !! k) ∧
    ∃ flag', _merge_commits original' new = Ok (flag', original').
Proof.
  intros Ho Hn.
  assert (Hidem : ∀ r, get_branches r = Ok (ob ∪ nb) →
            ∃ flag', _merge_commits r new = Ok (flag', r)).
  { intros r Hr. eapply _merge_commits_subset_keeps; eauto. set_solver. }
  unfold _merge_commits at 1. rewrite Hn, Ho. case_bool_decide as Hsub.
  - assert (ob ∪ nb = ob) as Heq.
    { rewrite (comm_L (∪) ob nb). apply subseteq_union_1_L. by destruct Hsub. }
    exists false, original. split_and!.
    + reflexivity.
    + by rewrite Heq.
    + apply union_subseteq_l.
    + done.
    + apply Hidem. by rewrite Heq.
  - exists true, (<["branches" := VSet (ob ∪ nb)]> original).
    split_and!.
    + reflexivity.
    + apply get_branches_insert.
    + apply union_subseteq_l.
    + intros k Hk. by rewrite lookup_insert_ne.
    + apply Hidem, get_branches_insert.
Qed.

(** The scenario of the specification: [{master}], then
    [{master, stable/X}], then [{master}] again. *)
Lemma C3_merge_commits_union_witness :
  let c0 := commit_on "c0ffee" {[ "master" ]} in
  let c1 := commit_on "c0ffee" {[ "master"; "stable/X" ]} in
  get_branches c0 = Ok {[ "master" ]} ∧
  get_branches c1 = Ok {[ "master"; "stable/X" ]} ∧
  ∃ flag original',
    _merge_commits c0 c1 = Ok (flag, original') ∧
    get_branches original' = Ok ({[ "master" ]} ∪ {[ "master"; "stable/X" ]}) ∧
    ({[ "master" ]} : gset string) ⊆ {[ "master" ]} ∪ {[ "master"; "stable/X" ]} ∧
    (∀ k, k ≠ "branches" → original' !! k = c0 !! k) ∧
    ∃ flag', _merge_commits original' c1 = Ok (flag', original').
Proof.
  split; [reflexivity|]. split; [reflexivity|].
  apply (C3_merge_commits_union
           (commit_on "c0ffee" {[ "master" ]})
           (commit_on "c0ffee" {[ "master"; "stable/X" ]})); reflexivity.
Defined.

Example merge_commits_scenario :
  let c0 := commit_on "c0ffee" {[ "master" ]} in
  let c1 := commit_on "c0ffee" {[ "master"; "stable/X" ]} in
  _merge_commits c0 c1 = Ok (true, c1) ∧
  _merge_commits c1 c0 = Ok (false, c1).
Proof. split; reflexivity. Qed.

(** ** Record typer *)




(** The typer ends the way its input ends, and yields the typed items
    of whatever its input yields before that. *)
Lemma _record_typer_yielded s label :
  yielded (_record_typer s label) = set_record_type label <$> yielded s.
Proof. induction s as [|r s IH|e]; simpl; [done | by rewrite IH | done]. Qed.

Lemma _record_typer_raised s label :
  raised (_record_typer s label) = raised s.
Proof. induction s as [|r s IH|e]; simpl; done. Qed.




Example record_typer_two_commits :
  yielded (_record_typer
             (of_list [ {[ "commit_id" := VStr "a1" ]};
                        {[ "commit_id" := VStr "b2"; "record_type" := VStr "x" ]} ])
             "commit")
  = [ {[ "commit_id" := VStr "a1"; "record_type" := VStr "commit" ]};
      {[ "commit_id" := VStr "b2"; "record_type" := VStr "commit" ]} ].
Proof. reflexivity. Qed.

(** ** Corrections *)

Lemma foldl_keep_correction acc cs :
  foldl keep_correction acc cs =
  acc ++ filter (λ c : record, is_Some (c !! "primary_key")) cs.
Proof.
  revert acc. induction cs as [|c cs IH]; intros acc; simpl.
  - by rewrite app_nil_r.
  - rewrite IH. unfold keep_correction. rewrite filter_cons.
    case_bool_decide; destruct (decide _); try done.
    by rewrite <- app_assoc.
Qed.

Lemma valid_corrections_filter cs :
  valid_corrections cs = filter (λ c : record, is_Some (c !! "primary_key")) cs.
Proof. unfold valid_corrections. by rewrite foldl_keep_correction. Qed.

(** C7: when the document cannot be read the call returns with the
    storage exactly as it was and without calling the storage's
    [apply_corrections]; otherwise the storage's [apply_corrections] is
    called once, with the entries that have a ['primary_key'], in their
    order in the document. *)
Theorem C7_apply_corrections_filters (C : collaborators) (uri : string)
    (st : storage) :
  (read_json_from_uri C uri = None →
     apply_corrections C uri st = (Ok tt, st)) ∧
  (∀ doc cs,
     read_json_from_uri C uri = Some doc → doc !! "corrections" = Some cs →
     let kept := filter (λ c : record, is_Some (c !! "primary_key")) cs in
     apply_corrections C uri st = storage_apply_corrections kept st ∧
     (apply_corrections C uri st).1 = Ok tt ∧
     trace (apply_corrections C uri st).2 = trace st ++ [EApplyCorrections kept]).
Proof.
  split.
  - intros Hnone. unfold apply_corrections. by rewrite Hnone.
  - intros doc cs Hdoc Hcs kept.
    assert (apply_corrections C uri st = storage_apply_corrections kept st) as ->.
    { unfold apply_corrections. rewrite Hdoc.
      rewrite bool_decide_eq_false_2.
      - by rewrite Hcs, valid_corrections_filter.
      - intros ->. by rewrite lookup_empty in Hcs. }
    done.
Qed.

(** ** Cursor writes come after the merge *)

Lemma merge_stream_Ok p s db u db' :
  merge_stream p s db = (Ok u, db') → raised s = None.
Proof.
  revert db. induction s as [|rec s IH|e]; intros db; simpl; [done| |done].
  destruct (merge_one p rec db); [apply IH | done].
Qed.

Section Tidy.
Context (J : string → event → Prop).

Lemma cursor_follows_merge_app l1 l2 prev :
  cursor_follows_merge J prev l1 →
  (∀ q, cursor_follows_merge J q l2) →
  cursor_follows_merge J prev (l1 ++ l2).
Proof.
  intros H1 H2. revert prev H1.
  induction l1 as [|e l1 IH]; intros prev H1; simpl; [apply H2|].
  destruct H1 as [Hhead Htail]. split; [done | by apply IH].
Qed.

Lemma cursor_follows_merge_split prev pre key v post :
  cursor_follows_merge J prev (pre ++ ESetByKey key v :: post) →
  (∃ pre' e, pre = pre' ++ [e] ∧ J key e) ∨
  (pre = [] ∧ ∃ p, prev = Some p ∧ J key p).
Proof.
  revert prev. induction pre as [|x pre IH]; intros prev; simpl.
  - intros [Hp _]. right. done.
  - intros [_ Hrest]. left.
    destruct (IH _ Hrest) as [(pre' & e & -> & HJ) | (-> & p & [= <-] & HJ)].
    + exists (x :: pre'), e. done.
    + exists [], x. done.
Qed.

Lemma tidy_ret {A} (a : A) : tidy J (mret a).
Proof. intros st. exists []. by rewrite app_nil_r. Qed.

Lemma tidy_lift {A} (x : result A) : tidy J (lift x).
Proof. intros st. exists []. by rewrite app_nil_r. Qed.

Lemma tidy_get_by_key key : tidy J (get_by_key key).
Proof. intros st. exists []. by rewrite app_nil_r. Qed.

Lemma tidy_emit_fetch uri : tidy J (emit (EFetch uri)).
Proof. intros st. exists [EFetch uri]. done. Qed.

Lemma tidy_bind {A B} (m : M A) (f : A → M B) :
  tidy J m → (∀ a, tidy J (f a)) → tidy J (m ≫= f).
Proof.
  intros Hm Hf st. destruct (Hm st) as (seg1 & Ht1 & Hg1).
  unfold mbind, M_bind. destruct (m st) as [[a|e] st1]; simpl in *.
  - destruct (Hf a st1) as (seg2 & Ht2 & Hg2).
    exists (seg1 ++ seg2). split.
    + by rewrite Ht2, Ht1, app_assoc.
    + intros prev. by apply cursor_follows_merge_app.
  - by exists seg1.
Qed.

Lemma tidy_for_each {A} (l : list A) (body : A → M unit) :
  (∀ a, tidy J (body a)) → tidy J (for_each l body).
Proof.
  intros Hbody. induction l as [|a l IH]; simpl.
  - apply tidy_ret.
  - apply tidy_bind; auto.
Qed.

(** The one place where a cursor is written: right behind the
    [set_records] call, and only when that call has returned. *)
Lemma tidy_merge_then_set s p (last : result string) key :
  (raised s = None → J key (ESetRecords p (yielded s))) →
  tidy J (set_records s p ;; last_id ← lift last; set_by_key key (SToken last_id)).
Proof.
  intros HJ st. unfold mbind, M_bind, set_records, lift, set_by_key.
  destruct (merge_stream p s (recs st)) as [[u|e] db] eqn:Hm; simpl.
  - apply merge_stream_Ok in Hm. destruct last as [id|e]; simpl.
    + exists [ESetRecords p (yielded s); ESetByKey key (SToken id)].
      split; [by rewrite <- app_assoc|].
      intros prev. simpl. split_and!; eauto.
    + exists [ESetRecords p (yielded s)]. done.
  - exists []. by rewrite app_nil_r.
Qed.
End Tidy.

Lemma commit_phase_tidy C r branch :
  tidy (merged_for C r) (commit_phase C r branch).
Proof.
  unfold commit_phase. apply tidy_bind; [apply tidy_get_by_key|].
  intros last_id. apply tidy_merge_then_set.
  intros Hend. exists branch, last_id. left. done.
Qed.

Lemma review_phase_tidy C r branch :
  tidy (merged_for C r) (review_phase C r branch).
Proof.
  unfold review_phase. apply tidy_bind; [apply tidy_get_by_key|].
  intros last_id. apply tidy_merge_then_set.
  intros Hend. exists branch, last_id. right. done.
Qed.

Lemma process_repo_tidy C r : tidy (merged_for C r) (process_repo C r).
Proof.
  unfold process_repo.
  repeat (apply tidy_bind; [first [apply tidy_lift | apply tidy_emit_fetch]|]; intros ?).
  apply tidy_for_each. intros branch. unfold process_branch.
  apply tidy_bind; [apply commit_phase_tidy|]. intros _. apply review_phase_tidy.
Qed.

(** C1: whatever [process_repo] does and however it ends, each cursor
    write it makes stands in the trace directly behind the return of the
    [set_records] call that merged that branch's stream to its end: the
    commit stream for a ['vcs:...'] key, the review stream for an
    ['rcs:...'] key.  No cursor is written without that merge having
    completed first. *)
Theorem C1_cursor_written_after_merge (C : collaborators) (r : repo)
    (st : storage) (pre post : list event) (key : string) (v : stored) :
  trace (process_repo C r st).2 = trace st ++ pre ++ ESetByKey key v :: post →
  ∃ pre' e, pre = pre' ++ [e] ∧ merged_for C r key e.
Proof.
  intros Htrace. destruct (process_repo_tidy C r st) as (seg & Hseg & Hg).
  rewrite Hseg in Htrace. apply app_inv_head in Htrace. subst seg.
  destruct (cursor_follows_merge_split _ None _ _ _ _ (Hg None))
    as [H | (_ & p & [=] & _)]; done.
Qed.

Lemma C1_cursor_written_after_merge_witness :
  trace (process_repo steady repo_a blank).2 =
    trace blank ++
    [EFetch "git://a"; ESetRecords MergeCommits [commit_on "c0ffee" {[ "master" ]}
       ∪ {[ "record_type" := VStr "commit" ]}]] ++
    ESetByKey "vcs:git://a:master" (SToken "head-master") ::
    [ESetRecords MergeRecords [];
     ESetByKey "rcs:git://a:master" (SToken "review-master")] ∧
  ∃ pre' e,
    [EFetch "git://a"; ESetRecords MergeCommits [commit_on "c0ffee" {[ "master" ]}
       ∪ {[ "record_type" := VStr "commit" ]}]] = pre' ++ [e] ∧
    merged_for steady repo_a "vcs:git://a:master" e.
Proof.
  split; [vm_compute; reflexivity|].
  apply (C1_cursor_written_after_merge steady repo_a blank _
           [ESetRecords MergeRecords [];
            ESetByKey "rcs:git://a:master" (SToken "review-master")]
           "vcs:git://a:master" (SToken "head-master")).
  vm_compute; reflexivity.
Defined.

Lemma C7_apply_corrections_filters_witness :
  read_json_from_uri steady "file:///missing.json" = None ∧
  apply_corrections steady "file:///missing.json" blank = (Ok tt, blank) ∧
  read_json_from_uri steady "file:///corrections.json"
    = Some {[ "corrections" := sample_corrections ]} ∧
  trace (apply_corrections steady "file:///corrections.json" blank).2
    = trace blank ++
      [EApplyCorrections
         (filter (λ c : record, is_Some (c !! "primary_key")) sample_corrections)].
Proof.
  split; [reflexivity|]. split.
  - apply (proj1 (C7_apply_corrections_filters steady "file:///missing.json" blank)).
    reflexivity.
  - split; [reflexivity|].
    apply (proj2 (C7_apply_corrections_filters steady "file:///corrections.json" blank)
             {[ "corrections" := sample_corrections ]} sample_corrections);
      reflexivity.
Defined.

Example corrections_kept :
  valid_corrections sample_corrections =
  [ {[ "primary_key" := VStr "c0ffee"; "author" := VStr "jane" ]};
    {[ "primary_key" := VStr "beef"; "company" := VStr "acme" ]} ].
Proof. reflexivity. Qed.

(** ** Cursor values *)

Lemma vcs_key_inj C uri b b' : vcs_key C uri b = vcs_key C uri b' → b = b'.
Proof.
  unfold vcs_key. intros H.
  apply (inj (String.app _)) in H. apply (inj (String.app _)) in H.
  by apply (inj (String.app _)) in H.
Qed.

Lemma vcs_key_not_rcs_key C uri uri' b b' : vcs_key C uri b ≠ rcs_key C uri' b'.
Proof. unfold vcs_key, rcs_key. cbn. intros [=]. Qed.

(** What the commit phase does to the key-value store: on normal
    return the cursor holds the adapter's head, on a raise nothing was
    written. *)
Lemma commit_phase_kv C r b st :
  (∃ id, (commit_phase C r b st).1 = Ok tt ∧ vcs_get_last_id C r b = Ok id ∧
         kv (commit_phase C r b st).2
         = <[vcs_key C (repo_uri r) b := SToken id]> (kv st)) ∨
  (∃ e, (commit_phase C r b st).1 = Raise e ∧
        kv (commit_phase C r b st).2 = kv st).
Proof.
  unfold commit_phase, mbind, M_bind, get_by_key, set_records, lift, set_by_key.
  simpl. destruct (merge_stream _ _ _) as [[u|e] db]; simpl; [|right; eauto].
  destruct (vcs_get_last_id C r b) as [id|e]; simpl; [left | right]; eauto.
Qed.

Lemma review_phase_kv C r b st :
  (∃ id, (review_phase C r b st).1 = Ok tt ∧ rcs_get_last_id C r b = Ok id ∧
         kv (review_phase C r b st).2
         = <[rcs_key C (repo_uri r) b := SToken id]> (kv st)) ∨
  (∃ e, (review_phase C r b st).1 = Raise e ∧
        kv (review_phase C r b st).2 = kv st).
Proof.
  unfold review_phase, mbind, M_bind, get_by_key, set_records, lift, set_by_key.
  simpl. destruct (merge_stream _ _ _) as [[u|e] db]; simpl; [|right; eauto].
  destruct (rcs_get_last_id C r b) as [id|e]; simpl; [left | right]; eauto.
Qed.

Lemma process_branch_run C r b st :
  process_branch C r b st =
  match commit_phase C r b st with
  | (Ok _, st1) => review_phase C r b st1
  | (Raise e, st1) => (Raise e, st1)
  end.
Proof. reflexivity. Qed.

Lemma for_each_cons {A} (a : A) l body st :
  for_each (a :: l) body st =
  match body a st with
  | (Ok _, st1) => for_each l body st1
  | (Raise e, st1) => (Raise e, st1)
  end.
Proof. reflexivity. Qed.

(** A commit cursor that holds the adapter's head keeps holding it
    through the pass of any branch. *)
Lemma process_branch_keeps C r b a id st :
  vcs_get_last_id C r a = Ok id →
  kv st !! vcs_key C (repo_uri r) a = Some (SToken id) →
  kv (process_branch C r b st).2 !! vcs_key C (repo_uri r) a = Some (SToken id).
Proof.
  intros Hid Hkv. rewrite process_branch_run.
  assert (kv (commit_phase C r b st).2 !! vcs_key C (repo_uri r) a
          = Some (SToken id)) as Hc.
  { destruct (commit_phase_kv C r b st) as [(id' & _ & Hid' & ->)|(e & _ & ->)];
      [|done].
    destruct (decide (b = a)) as [->|Hne].
    - rewrite lookup_insert_eq. congruence.
    - rewrite lookup_insert_ne; [done|]. intros ?%vcs_key_inj. done. }
  destruct (commit_phase C r b st) as [[u|e] st1]; simpl in *; [|done].
  destruct (review_phase_kv C r b st1) as [(id' & _ & _ & ->)|(e & _ & ->)];
    [|done].
  rewrite lookup_insert_ne; [done|]. intros Heq. symmetry in Heq.
  by apply vcs_key_not_rcs_key in Heq.
Qed.

Lemma process_branch_sets C r b st :
  (process_branch C r b st).1 = Ok tt →
  ∃ id, vcs_get_last_id C r b = Ok id ∧
        kv (process_branch C r b st).2 !! vcs_key C (repo_uri r) b
        = Some (SToken id).
Proof.
  intros Hok.
  destruct (commit_phase_kv C r b st) as [(id & Hc & Hid & Hkv)|(e & He & _)].
  - exists id. split; [done|].
    assert (kv (commit_phase C r b st).2 !! vcs_key C (repo_uri r) b
            = Some (SToken id)) as Hc'
      by (rewrite Hkv; apply lookup_insert_eq).
    revert Hok. rewrite process_branch_run.
    destruct (commit_phase C r b st) as [[u|e] st1]; simpl in *; [|done].
    intros _.
    destruct (review_phase_kv C r b st1) as [(id' & _ & _ & ->)|(e & _ & ->)];
      [|done].
    rewrite lookup_insert_ne; [done|]. intros Heq. symmetry in Heq.
    by apply vcs_key_not_rcs_key in Heq.
  - revert Hok. rewrite process_branch_run.
    destruct (commit_phase C r b st) as [[u|e'] st1]; simpl in *; done.
Qed.

Lemma for_each_branch_keeps C r l a id st :
  vcs_get_last_id C r a = Ok id →
  kv st !! vcs_key C (repo_uri r) a = Some (SToken id) →
  kv (for_each l (process_branch C r) st).2 !! vcs_key C (repo_uri r) a
  = Some (SToken id).
Proof.
  intros Hid. revert st. induction l as [|b l IH]; intros st Hkv; [done|].
  rewrite for_each_cons.
  pose proof (process_branch_keeps C r b a id st Hid Hkv) as Hk.
  destruct (process_branch C r b st) as [[u|e] st1]; simpl in *; auto.
Qed.

Lemma for_each_branch_sets C r l st :
  (for_each l (process_branch C r) st).1 = Ok tt →
  ∀ b, b ∈ l →
    ∃ id, vcs_get_last_id C r b = Ok id ∧
          kv (for_each l (process_branch C r) st).2 !! vcs_key C (repo_uri r) b
          = Some (SToken id).
Proof.
  revert st. induction l as [|a l IH]; intros st Hok b Hb.
  - by apply elem_of_nil in Hb.
  - revert Hok. rewrite for_each_cons.
    pose proof (process_branch_sets C r a st) as Hs.
    destruct (process_branch C r a st) as [[u|e] st1]; simpl in *; [|done].
    intros Hok. destruct u.
    destruct (decide (b = a)) as [->|Hne].
    + destruct (Hs eq_refl) as (id & Hid & Hkv). exists id. split; [done|].
      by apply for_each_branch_keeps.
    + apply IH; [done|]. apply elem_of_cons in Hb as [?|?]; done.
Qed.

Lemma process_repo_run C r st :
  process_repo C r st =
  match vcs_fetch C r with
  | Raise e => (Raise e, st)
  | Ok _ =>
    let st1 := {| kv := kv st; recs := recs st;
                  trace := trace st ++ [EFetch (repo_uri r)] |} in
    match rcs_setup C r with
    | Raise e => (Raise e, st1)
    | Ok _ =>
      match resolve_branches r with
      | Raise e => (Raise e, st1)
      | Ok branches => for_each (elements branches) (process_branch C r) st1
      end
    end
  end.
Proof.
  unfold process_repo, mbind, M_bind, lift, emit.
  destruct (vcs_fetch C r); [|done]. simpl.
  destruct (rcs_setup C r); [|done].
  destruct (resolve_branches r); done.
Qed.

(** C8: when [process_repo] returns, the commit cursor of every branch
    of the repository holds what the adapter's [get_last_id] returns for
    that branch; the same holds right after the commit phase of a
    branch; and when the log brings nothing new the commit phase still
    returns normally with the cursor set to the adapter's head and the
    stored records untouched. *)
Theorem C8_commit_cursor_is_adapter_head (C : collaborators) (r : repo)
    (st : storage) :
  (∀ branches b,
     resolve_branches r = Ok branches → b ∈ branches →
     (process_repo C r st).1 = Ok tt →
     ∃ id, vcs_get_last_id C r b = Ok id ∧
           kv (process_repo C r st).2 !! vcs_key C (repo_uri r) b
           = Some (SToken id)) ∧
  (∀ b,
     (commit_phase C r b st).1 = Ok tt →
     ∃ id, vcs_get_last_id C r b = Ok id ∧
           kv (commit_phase C r b st).2 !! vcs_key C (repo_uri r) b
           = Some (SToken id)) ∧
  (∀ b id,
     commit_stream C r b (kv st !! vcs_key C (repo_uri r) b) = SNil →
     vcs_get_last_id C r b = Ok id →
     commit_phase C r b st =
     (Ok tt,
      {| kv := <[vcs_key C (repo_uri r) b := SToken id]> (kv st);
         recs := recs st;
         trace := trace st ++ [ESetRecords MergeCommits [];
                               ESetByKey (vcs_key C (repo_uri r) b) (SToken id)] |})).
Proof.
  split_and!.
  - intros branches b Hbs Hb. rewrite process_repo_run. rewrite Hbs.
    destruct (vcs_fetch C r); [|done]. destruct (rcs_setup C r); [|done].
    simpl. intros Hok. apply for_each_branch_sets; [done|].
    by apply elem_of_elements.
  - intros b Hok.
    destruct (commit_phase_kv C r b st) as [(id & _ & Hid & ->)|(e & He & _)].
    + exists id. split; [done | apply lookup_insert_eq].
    + congruence.
  - intros b id Hnil Hid.
    unfold commit_stream in Hnil.
    unfold commit_phase, mbind, M_bind, get_by_key, set_records, lift, set_by_key.
    simpl. rewrite Hnil, Hid. simpl. by rewrite <- app_assoc.
Qed.

Lemma C8_commit_cursor_is_adapter_head_witness :
  (resolve_branches repo_b = Ok {[ "master"; "stable/kilo" ]} ∧
   "stable/kilo" ∈ ({[ "master"; "stable/kilo" ]} : gset string) ∧
   (process_repo steady repo_b blank).1 = Ok tt ∧
   ∃ id, vcs_get_last_id steady repo_b "stable/kilo" = Ok id ∧
         kv (process_repo steady repo_b blank).2
           !! vcs_key steady (repo_uri repo_b) "stable/kilo" = Some (SToken id)) ∧
  ((commit_phase steady repo_b "master" blank).1 = Ok tt ∧
   ∃ id, vcs_get_last_id steady repo_b "master" = Ok id ∧
         kv (commit_phase steady repo_b "master" blank).2
           !! vcs_key steady (repo_uri repo_b) "master" = Some (SToken id)) ∧
  (commit_stream idle repo_a "master"
     (kv blank !! vcs_key idle (repo_uri repo_a) "master") = SNil ∧
   vcs_get_last_id idle repo_a "master" = Ok "head-master" ∧
   commit_phase idle repo_a "master" blank =
   (Ok tt,
    {| kv := <[vcs_key idle (repo_uri repo_a) "master" := SToken "head-master"]>
               (kv blank);
       recs := recs blank;
       trace := trace blank ++
                [ESetRecords MergeCommits [];
                 ESetByKey (vcs_key idle (repo_uri repo_a) "master")
                           (SToken "head-master")] |})).
Proof.
  split_and!.
  - vm_compute; reflexivity.
  - apply (bool_decide_unpack _). vm_compute. exact I.
  - vm_compute; reflexivity.
  - apply (proj1 (C8_commit_cursor_is_adapter_head steady repo_b blank)
             {[ "master"; "stable/kilo" ]} "stable/kilo").
    + vm_compute; reflexivity.
    + apply (bool_decide_unpack _). vm_compute. exact I.
    + vm_compute; reflexivity.
  - vm_compute; reflexivity.
  - apply (proj1 (proj2 (C8_commit_cursor_is_adapter_head steady repo_b blank))
             "master").
    vm_compute; reflexivity.
  - reflexivity.
  - reflexivity.
  - apply (proj2 (proj2 (C8_commit_cursor_is_adapter_head idle repo_a blank))
             "master" "head-master"); reflexivity.
Defined.

(** ** One update cycle *)

Lemma for_each_app {A} (l1 l2 : list A) body st :
  for_each (l1 ++ l2) body st =
  match for_each l1 body st with
  | (Ok _, st1) => for_each l2 body st1
  | (Raise e, st1) => (Raise e, st1)
  end.
Proof.
  revert st. induction l1 as [|a l1 IH]; intros st; [done|].
  simpl app. rewrite !for_each_cons.
  destruct (body a st) as [[u|e] st1]; [apply IH | done].
Qed.

Lemma update_records_run C st :
  update_records C st =
  match load_repos st with
  | (Raise e, st0) => (Raise e, st0)
  | (Ok repos, st0) =>
    match for_each repos (process_repo C) st0 with
    | (Raise e, st1) => (Raise e, st1)
    | (Ok _, st1) =>
      match load_mail_lists st1 with
      | (Raise e, st2) => (Raise e, st2)
      | (Ok mail_lists, st2) =>
        match for_each mail_lists (process_mail_list C) st2 with
        | (Raise e, st3) => (Raise e, st3)
        | (Ok _, st3) =>
          match rp_update C with
          | Raise e => (Raise e, st3)
          | Ok _ => emit EUpdate st3
          end
        end
      end
    end
  end.
Proof.
  unfold update_records, mbind, M_bind.
  destruct (load_repos st) as [[repos|e] st0]; [|done].
  destruct (for_each repos (process_repo C) st0) as [[u|e] st1]; [|done].
  destruct (load_mail_lists st1) as [[ml|e] st2]; [|done].
  destruct (for_each ml (process_mail_list C) st2) as [[u'|e] st3]; [|done].
  unfold lift. destruct (rp_update C); done.
Qed.

Lemma load_repos_stored st repos :
  kv st !! "repos" = Some (SRepos repos) → load_repos st = (Ok repos, st).
Proof.
  intros H. unfold load_repos, mbind, M_bind, get_by_key. by rewrite H.
Qed.

Lemma load_mail_lists_stored st uris :
  kv st !! "mail_lists" = Some (SUris uris) →
  load_mail_lists st = (Ok uris, st).
Proof.
  intros H. unfold load_mail_lists, mbind, M_bind, get_by_key. by rewrite H.
Qed.

(** C4 as the code has it: nothing in [update_records] catches an
    exception.  When the pass of a repository raises, the cycle ends
    there with that exception and with the storage as the failed pass
    left it: the repositories before it have been synchronized, the ones
    after it, the mailing lists and the record processor's [update] are
    not reached.  A raise in the pass of a mailing list ends the cycle
    in the same way for the lists after it and for [update]. *)
Theorem C4_exception_ends_the_cycle (C : collaborators) (st : storage) :
  (∀ before a after e st1 st2,
     kv st !! "repos" = Some (SRepos (before ++ a :: after)) →
     for_each before (process_repo C) st = (Ok tt, st1) →
     process_repo C a st1 = (Raise e, st2) →
     update_records C st = (Raise e, st2)) ∧
  (∀ repos before u after e st1 st2 st3,
     kv st !! "repos" = Some (SRepos repos) →
     for_each repos (process_repo C) st = (Ok tt, st1) →
     kv st1 !! "mail_lists" = Some (SUris (before ++ u :: after)) →
     for_each before (process_mail_list C) st1 = (Ok tt, st2) →
     process_mail_list C u st2 = (Raise e, st3) →
     update_records C st = (Raise e, st3)).
Proof.
  split.
  - intros before a after e st1 st2 Hrepos Hbefore Hfail.
    rewrite update_records_run, (load_repos_stored _ _ Hrepos).
    by rewrite for_each_app, Hbefore, for_each_cons, Hfail.
  - intros repos before u after e st1 st2 st3 Hrepos Hr Hml Hbefore Hfail.
    rewrite update_records_run, (load_repos_stored _ _ Hrepos), Hr.
    rewrite (load_mail_lists_stored _ _ Hml).
    by rewrite for_each_app, Hbefore, for_each_cons, Hfail.
Qed.

Lemma C4_exception_ends_the_cycle_witness :
  (kv two_repos !! "repos" = Some (SRepos ([] ++ repo_a :: [repo_b])) ∧
   for_each [] (process_repo flaky) two_repos = (Ok tt, two_repos) ∧
   process_repo flaky repo_a two_repos
     = (Raise (SourceError "fetch failed"), two_repos) ∧
   update_records flaky two_repos
     = (Raise (SourceError "fetch failed"), two_repos)) ∧
  (let st1 := (for_each [repo_a; repo_b] (process_repo archive_down) two_repos).2 in
   kv two_repos !! "repos" = Some (SRepos [repo_a; repo_b]) ∧
   for_each [repo_a; repo_b] (process_repo archive_down) two_repos = (Ok tt, st1) ∧
   kv st1 !! "mail_lists" = Some (SUris ([] ++ "http://lists/dev" :: [])) ∧
   process_mail_list archive_down "http://lists/dev" st1
     = (Raise (SourceError "archive down"), st1) ∧
   update_records archive_down two_repos
     = (Raise (SourceError "archive down"), st1)).
Proof.
  split.
  - repeat (split; [reflexivity|]).
    apply (proj1 (C4_exception_ends_the_cycle flaky two_repos)
             [] repo_a [repo_b] (SourceError "fetch failed") two_repos two_repos);
      reflexivity.
  - intros st1. repeat (split; [vm_compute; reflexivity|]).
    apply (proj2 (C4_exception_ends_the_cycle archive_down two_repos)
             [repo_a; repo_b] [] "http://lists/dev" [] (SourceError "archive down")
             st1 st1 st1); vm_compute; reflexivity.
Defined.

(** C4 as stated fails: under [flaky] the fetch of ["git://a"] raises,
    the pass of ["git://b"] on its own succeeds, and yet the cycle ends
    with that exception before ["git://b"] is looked at, leaving its
    cursor unset. *)
Lemma C4_fetch_failure_stops_siblings :
  vcs_fetch flaky repo_a = Raise (SourceError "fetch failed") ∧
  (process_repo flaky repo_b two_repos).1 = Ok tt ∧
  update_records flaky two_repos
    = (Raise (SourceError "fetch failed"), two_repos) ∧
  kv (update_records flaky two_repos).2 !! vcs_key flaky "git://b" "master" = None ∧
  ¬ siblings_unaffected flaky two_repos.
Proof.
  assert (update_records flaky two_repos
          = (Raise (SourceError "fetch failed"), two_repos)) as Hrun
    by (vm_compute; reflexivity).
  do 4 (split; [first [reflexivity | vm_compute; reflexivity]|]).
  intros Hiso.
  destruct (Hiso [repo_a; repo_b] repo_b) as [id Hid].
  - reflexivity.
  - apply list_elem_of_further, list_elem_of_here.
  - vm_compute; reflexivity.
  - rewrite Hrun in Hid. discriminate Hid.
Qed.

(** ** Branch resolution *)

Lemma foldl_add_release_branch releases acc b :
  b ∈ foldl add_release_branch acc releases ↔
  b ∈ acc ∨ ∃ rel : release, rel ∈ releases ∧ rel !! "branch" = Some b.
Proof.
  revert acc. induction releases as [|rel releases IH]; intros acc; simpl.
  - split; [by left|]. intros [?|(rel & Hin & _)]; [done|].
    by apply elem_of_nil in Hin.
  - rewrite IH. unfold add_release_branch. split.
    + intros [Hacc|(rel' & Hin & Hb)].
      * destruct (rel !! "branch") as [b'|] eqn:Hrel; [|by left].
        apply elem_of_union in Hacc as [?|Hb']; [by left|].
        apply elem_of_singleton in Hb' as ->. right. exists rel.
        split; [apply elem_of_cons; by left | done].
      * right. exists rel'. split; [apply elem_of_cons; by right | done].
    + intros [Hacc|(rel' & Hin & Hb)].
      * left. destruct (rel !! "branch"); [|done].
        apply elem_of_union. by left.
      * apply elem_of_cons in Hin as [->|Hin].
        -- left. rewrite Hb. apply elem_of_union. right.
           by apply elem_of_singleton.
        -- right. by exists rel'.
Qed.

(** With a ['releases'] list at hand, the branches are ['master'] and
    the ['branch'] of every release that has one. *)
Lemma resolve_branches_listed r releases :
  repo_releases r = Some releases →
  ∃ branches, resolve_branches r = Ok branches ∧
    ∀ b, b ∈ branches ↔
         b = "master" ∨ ∃ rel : release, rel ∈ releases ∧ rel !! "branch" = Some b.
Proof.
  intros Hr. unfold resolve_branches. rewrite Hr. eexists. split; [done|].
  intros b. rewrite foldl_add_release_branch.
  by rewrite elem_of_singleton.
Qed.

Example resolve_branches_sample :
  resolve_branches repo_b = Ok {[ "master"; "stable/kilo" ]} ∧
  resolve_branches repo_a = Ok {[ "master" ]}.
Proof. split; vm_compute; reflexivity. Qed.

(** C5, at the input on which the code departs from it: a repository
    descriptor without the ['releases'] key.  [repo.get('releases')] is
    [None] there and the loop over it raises, so the call does not
    complete normally and no branch, not even ['master'], is
    synchronized: no cursor is written. *)
Theorem C5_missing_releases_key_raises (C : collaborators) (r : repo)
    (st : storage) :
  repo_releases r = None →
  (∃ e, (process_repo C r st).1 = Raise e) ∧
  kv (process_repo C r st).2 = kv st ∧
  (vcs_fetch C r = Ok tt → rcs_setup C r = Ok tt →
   process_repo C r st =
   (Raise (TypeError "'NoneType' object is not iterable"),
    {| kv := kv st; recs := recs st;
       trace := trace st ++ [EFetch (repo_uri r)] |})).
Proof.
  intros Hnone. rewrite process_repo_run. unfold resolve_branches.
  rewrite Hnone.
  destruct (vcs_fetch C r) as [[]|e].
  - destruct (rcs_setup C r) as [[]|e]; simpl.
    + split_and!; [by eexists | done | done].
    + split_and!; [by eexists | done | intros _ [=]].
  - split_and!; [by eexists | done | intros [=]].
Qed.

Lemma C5_missing_releases_key_raises_witness :
  repo_releases repo_bare = None ∧
  process_repo steady repo_bare blank =
  (Raise (TypeError "'NoneType' object is not iterable"),
   {| kv := ∅; recs := ∅; trace := [EFetch "git://bare"] |}).
Proof.
  split; [reflexivity|].
  apply (proj2 (proj2 (C5_missing_releases_key_raises steady repo_bare blank
                         eq_refl))); reflexivity.
Defined.

(** ** Taxonomy: ids and the fixed groups *)

Lemma set_ids_lookup mg k :
  set_ids mg !! k = set_id k <$> mg !! k.
Proof. unfold set_ids. rewrite map_lookup_imap. by destruct (mg !! k). Qed.

Lemma set_ids_id mg k g : set_ids mg !! k = Some g → g_id g = Some k.
Proof.
  rewrite set_ids_lookup. destruct (mg !! k) as [g0|]; [|done].
  by intros [= <-].
Qed.

Section Tagged.
Context (T : option string → Prop) (k : string).

Lemma tagged_touch k' f mg :
  (k' ≠ k ∨ ∀ g, T (g_tag g) → T (g_tag (f g))) →
  tagged T k mg → tagged T k (touch k' f mg).
Proof.
  intros Hf (g & Hg & HT). unfold tagged, touch.
  destruct (decide (k' = k)) as [->|Hne].
  - rewrite lookup_insert_eq, Hg. simpl. eexists. split; [done|].
    destruct Hf as [?|Hf]; [done | by apply Hf].
  - rewrite lookup_insert_ne by done. by exists g.
Qed.

Lemma tagged_walk_releases module module_name releases project_type mg :
  tagged T k mg →
  tagged T k (walk_releases module module_name project_type releases mg).
Proof.
  revert project_type mg.
  induction releases as [|rn releases IH]; intros pt mg Hmg; simpl; [done|].
  apply IH, tagged_touch; [|done]. right. done.
Qed.

Lemma tagged_process_module group_id rn mg module mg' :
  tagged T k mg → process_module group_id rn mg module = Ok mg' →
  tagged T k mg'.
Proof.
  intros Hmg. unfold process_module.
  destruct (module !! "repo") as [path|]; [|done].
  destruct (split_slash path !! 1%nat) as [mname|]; [|done].
  assert (tagged T k (touch group_id (add_module mname) mg)) as Hmg1.
  { apply tagged_touch; [|done]. right. done. }
  destruct (has_release_tag module); intros [= <-].
  - by apply tagged_walk_releases.
  - apply tagged_touch; [|done]. right. done.
Qed.

Lemma tagged_process_modules group_id rn modules mg mg' :
  tagged T k mg → process_modules group_id rn modules mg = Ok mg' →
  tagged T k mg'.
Proof.
  revert mg. induction modules as [|module modules IH]; intros mg Hmg; simpl.
  - by intros [= <-].
  - destruct (process_module group_id rn mg module) as [mg1|e] eqn:Hm; [|done].
    apply IH. by eapply tagged_process_module.
Qed.

Lemma tagged_process_program rn mg name i mg' :
  (program_group_id name i ≠ k ∨ ∀ t, T t → T (Some "program")) →
  tagged T k mg → process_program rn mg name i = Ok mg' → tagged T k mg'.
Proof.
  intros Hk Hmg. unfold process_program.
  destruct (info_projects i) as [modules|]; [|done].
  apply tagged_process_modules.
  apply tagged_touch.
  { destruct Hk as [?|Hk]; [by left|]. right. intros g. apply Hk. }
  apply tagged_touch; [|done]. right. done.
Qed.

Lemma tagged_process_programs rn content mg mg' :
  (∀ name i, (name, i) ∈ content →
     program_group_id name i ≠ k ∨ ∀ t, T t → T (Some "program")) →
  tagged T k mg → process_programs rn content mg = Ok mg' → tagged T k mg'.
Proof.
  revert mg. induction content as [|[name i] content IH]; intros mg Hk Hmg; simpl.
  - by intros [= <-].
  - destruct (process_program rn mg name i) as [mg1|e] eqn:Hp; [|done].
    apply IH.
    + intros name' i' Hin. apply Hk. apply elem_of_cons. by right.
    + eapply tagged_process_program; [|done|done].
      apply Hk. apply elem_of_cons. by left.
Qed.

Lemma tagged_set_ids mg : tagged T k mg → tagged T k (set_ids mg).
Proof.
  intros (g & Hg & HT). exists (set_id k g). split; [|done].
  by rewrite set_ids_lookup, Hg.
Qed.
End Tagged.

Lemma initial_groups_tagged k :
  k ∈ official_ids → tagged (λ t, t = Some "project_type") k initial_groups.
Proof.
  unfold official_ids. rewrite !elem_of_cons, elem_of_nil.
  intros [->|[->|[->|[->|[]]]]]; eexists; split; vm_compute; reflexivity.
Qed.

Lemma group_suffix_not_official s k : k ∈ official_ids → s +:+ "-group" ≠ k.
Proof.
  unfold official_ids. intros Hk H.
  repeat (apply elem_of_cons in Hk as [->|Hk]); [..|by apply elem_of_nil in Hk];
    repeat (destruct s as [|? s]; cbn in H; [discriminate H | injection H as _ H]);
    destruct s; discriminate H.
Qed.

Lemma tagged_program_after rn mg name i mg' :
  process_program rn mg name i = Ok mg' →
  tagged (λ t, t = Some "program") (program_group_id name i) mg'.
Proof.
  unfold process_program.
  destruct (info_projects i) as [modules|]; [|done].
  apply tagged_process_modules.
  unfold tagged, touch at 1. rewrite lookup_insert_eq. by eexists.
Qed.

Lemma process_programs_tagged_program rn content : ∀ mg mg' name i,
  process_programs rn content mg = Ok mg' → (name, i) ∈ content →
  tagged (λ t, t = Some "program") (program_group_id name i) mg'.
Proof.
  induction content as [|[name' i'] content IH]; intros mg mg' name i Hrun Hin.
  - by apply elem_of_nil in Hin.
  - simpl in Hrun.
    destruct (process_program rn mg name' i') as [mg1|e] eqn:Hp; [|done].
    apply elem_of_cons in Hin as [[= <- <-]|Hin].
    + eapply tagged_process_programs; [| |exact Hrun].
      * intros ? ? _. right. done.
      * by eapply tagged_program_after.
    + by eapply IH.
Qed.

(** The group id of a program falls on a fixed id only for a program
    without codename whose lower-cased name is that id. *)
Lemma program_group_id_official name i k :
  k ∈ official_ids → program_group_id name i = k →
  info_codename i = None ∧ lower name = k.
Proof.
  intros Hk. unfold program_group_id.
  destruct (info_codename i) as [cn|]; [|done].
  intros Heq. by apply (group_suffix_not_official (lower cn) k) in Heq.
Qed.

(** C10 as the code has it: in the taxonomy returned for a feed, every
    group carries as ['id'] the key it is stored under, so no two groups
    share an id; the four fixed groups are always present, tagged
    ['project_type'] or ['program']: tagged ['project_type'] whenever no
    program of the feed derives that same group id, and tagged
    ['program'] whenever one does, which only a program without
    codename whose lower-cased name is that id can; the empty feed is
    accepted. *)
Theorem C10_ids_and_official_groups (content : list (string * info))
    (release_names : list string) (mg : gmap string group) :
  _read_official_programs_yaml (Some content) release_names = Ok mg →
  (∀ k g, mg !! k = Some g → g_id g = Some k) ∧
  (∀ k1 k2 g1 g2,
     mg !! k1 = Some g1 → mg !! k2 = Some g2 → g_id g1 = g_id g2 → k1 = k2) ∧
  (∀ k, k ∈ official_ids →
     tagged (λ t, t = Some "project_type" ∨ t = Some "program") k mg ∧
     ((∀ name i, (name, i) ∈ content → program_group_id name i ≠ k) →
      tagged (λ t, t = Some "project_type") k mg) ∧
     (∀ name i, (name, i) ∈ content → program_group_id name i = k →
        info_codename i = None ∧ lower name = k ∧
        tagged (λ t, t = Some "program") k mg)) ∧
  _read_official_programs_yaml (Some []) release_names
    = Ok (set_ids initial_groups) ∧
  official_groups_tagged (set_ids initial_groups).
Proof.
  unfold _read_official_programs_yaml.
  destruct (process_programs release_names content initial_groups)
    as [mg0|e] eqn:Hrun; [|done].
  intros [= <-].
  assert (∀ k g, set_ids mg0 !! k = Some g → g_id g = Some k) as Hid
    by apply set_ids_id.
  split_and!.
  - done.
  - intros k1 k2 g1 g2 H1%Hid H2%Hid Heq. congruence.
  - intros k Hk. pose proof (initial_groups_tagged k Hk) as (g & Hg & Ht).
    split; [|split].
    + apply tagged_set_ids.
      eapply tagged_process_programs; [| |exact Hrun].
      * intros name i _. right. intros t _. by right.
      * exists g. split; [done | by left].
    + intros Hfree. apply tagged_set_ids.
      eapply tagged_process_programs; [| |exact Hrun].
      * intros name i Hin. left. by apply Hfree.
      * by exists g.
    + intros name i Hin Heq.
      destruct (program_group_id_official name i k Hk Heq) as [Hcode Hname].
      split; [done|]. split; [done|].
      apply tagged_set_ids. rewrite <- Heq.
      by eapply process_programs_tagged_program.
  - done.
  - intros k Hk. by apply tagged_set_ids, initial_groups_tagged.
Qed.

Lemma C10_ids_and_official_groups_witness :
  (let feed := [("Compute", {| info_codename := Some "Nova";
                               info_projects :=
                                 Some [ {[ "repo" := "openstack/nova";
                                           "mature-since" := "kilo" ]} ] |})] in
   ∃ mg, _read_official_programs_yaml (Some feed) ["icehouse"; "juno"; "kilo"]
         = Ok mg ∧
         (∀ k g, mg !! k = Some g → g_id g = Some k) ∧
         official_groups_tagged mg) ∧
  (∃ mg, _read_official_programs_yaml (Some feed_named_official_core) [] = Ok mg ∧
         tagged (λ t, t = Some "program") "official-core" mg).
Proof.
  split.
  - intros feed.
    assert (∃ mg, _read_official_programs_yaml (Some feed)
                    ["icehouse"; "juno"; "kilo"] = Ok mg) as [mg Hrun].
    { eexists. reflexivity. }
    exists mg. split; [exact Hrun|].
    destruct (C10_ids_and_official_groups feed ["icehouse"; "juno"; "kilo"] mg Hrun)
      as (Hid & _ & Htag & _).
    split; [exact Hid|].
    intros k Hk. apply (proj1 (proj2 (Htag k Hk))).
    intros name i Hin. apply list_elem_of_singleton in Hin. injection Hin as -> ->.
    intros <-. clear -Hk. revert Hk. vm_compute. intros Hk.
    repeat (apply elem_of_cons in Hk as [Hk|Hk]; [discriminate Hk|]).
    by apply elem_of_nil in Hk.
  - assert (∃ mg, _read_official_programs_yaml (Some feed_named_official_core) []
                  = Ok mg) as [mg Hrun].
    { eexists. reflexivity. }
    exists mg. split; [exact Hrun|].
    destruct (C10_ids_and_official_groups feed_named_official_core [] mg Hrun)
      as (_ & _ & Htag & _).
    assert ("official-core" ∈ official_ids) as Hk.
    { do 3 apply list_elem_of_further. apply list_elem_of_here. }
    apply (proj2 (proj2 (Htag "official-core" Hk))
             "Official-Core"
             {| info_codename := None; info_projects := Some [] |}).
    + apply list_elem_of_here.
    + reflexivity.
Defined.

(** C10 as stated fails: a program without codename whose lower-cased
    name is ['official-core'] takes over that group and leaves it tagged
    ['program']. *)
Lemma C10_program_named_like_official_group :
  ∃ mg g,
    _read_official_programs_yaml (Some feed_named_official_core) [] = Ok mg ∧
    mg !! "official-core" = Some g ∧
    g_tag g = Some "program" ∧
    ¬ official_groups_tagged mg.
Proof.
  set (mg0 := touch "official-core" (set_tag "program")
                (touch "official-core" (set_name "Official-Core") initial_groups)).
  assert (∃ g0, set_ids mg0 !! "official-core"
                = Some (set_id "official-core" (set_tag "program" g0)))
    as [g0 Hlook].
  { eexists. rewrite set_ids_lookup. unfold mg0, touch at 1.
    rewrite lookup_insert_eq. reflexivity. }
  exists (set_ids mg0). eexists. split_and!.
  - reflexivity.
  - exact Hlook.
  - reflexivity.
  - intros Hall. destruct (Hall "official-core") as (g & Hg & Ht).
    + do 3 apply list_elem_of_further. apply list_elem_of_here.
    + rewrite Hlook in Hg. injection Hg as <-. discriminate Ht.
Qed.

(** ** Taxonomy: release buckets *)

Lemma bucket_empty gid rel : bucket ∅ gid rel = [].
Proof. unfold bucket. by rewrite lookup_empty. Qed.

Lemma bucket_touch_keep k f mg gid rel :
  (∀ g, g_releases (f g) = g_releases g) →
  bucket (touch k f mg) gid rel = bucket mg gid rel.
Proof.
  intros Hf. unfold bucket, touch.
  destruct (decide (k = gid)) as [->|Hne].
  - rewrite lookup_insert_eq. simpl. rewrite Hf.
    destruct (mg !! gid); [done|]. simpl. by rewrite lookup_empty.
  - by rewrite lookup_insert_ne.
Qed.

Lemma bucket_touch_add_release k rn m mg gid rel :
  bucket (touch k (add_release rn m) mg) gid rel =
  bucket mg gid rel ++ lands_in [(k, rn)] gid rel m.
Proof.
  unfold bucket, touch, lands_in.
  destruct (decide (k = gid)) as [->|Hne].
  - rewrite lookup_insert_eq. simpl.
    assert (default fresh_group (mg !! gid) = 
            default fresh_group (mg !! gid)) as _ by done.
    destruct (decide (rn = rel)) as [->|Hrel].
    + rewrite lookup_insert_eq.
      rewrite bool_decide_eq_true_2 by (apply list_elem_of_singleton; done).
      destruct (mg !! gid) as [g|]; simpl; [done|].
      by rewrite lookup_empty.
    + rewrite lookup_insert_ne by done.
      rewrite bool_decide_eq_false_2.
      * rewrite app_nil_r. destruct (mg !! gid) as [g|]; simpl; [done|].
        by rewrite lookup_empty.
      * intros [=]%list_elem_of_singleton. done.
  - rewrite lookup_insert_ne by done.
    rewrite bool_decide_eq_false_2; [by rewrite app_nil_r|].
    intros [=]%list_elem_of_singleton. done.
Qed.


Lemma bucket_initial_groups gid rel : bucket initial_groups gid rel = [].
Proof.
  unfold initial_groups, official.
  rewrite !bucket_touch_keep by done. apply bucket_empty.
Qed.












(** * Further properties of the module *)

(** ** More on the commit merge *)

Lemma _merge_commits_result original new ob nb :
  get_branches original = Ok ob → get_branches new = Ok nb →
  ∃ flag, _merge_commits original new
          = Ok (flag, <["branches" := VSet (ob ∪ nb)]> original).
Proof.
  intros Ho Hn. unfold _merge_commits. rewrite Hn, Ho.
  case_bool_decide as Hsub; [|by eexists].
  exists false. do 2 f_equal. symmetry.
  replace (ob ∪ nb) with ob.
  - apply insert_id. by apply get_branches_Ok.
  - symmetry. rewrite (comm_L (∪) ob nb). apply subseteq_union_1_L.
    by destruct Hsub.
Qed.

Lemma merge_all_result news : ∀ original ob,
  get_branches original = Ok ob →
  Forall (λ n, is_ok (get_branches n) = true) news →
  merge_all original news
  = Ok (<["branches" := VSet (ob ∪ ⋃ (branches_of <$> news))]> original).
Proof.
  induction news as [|n news IH]; intros original ob Ho Hall; cbn [merge_all].
  - rewrite fmap_nil, union_list_nil, (right_id_L ∅ (∪)). f_equal. symmetry.
    apply insert_id. by apply get_branches_Ok.
  - apply Forall_cons in Hall as [Hn Hall].
    destruct (get_branches n) as [nb|e] eqn:Hnb; [|done].
    destruct (_merge_commits_result original n ob nb Ho Hnb) as [flag ->].
    rewrite (IH _ (ob ∪ nb)); [|apply get_branches_insert|done].
    rewrite insert_insert_eq, fmap_cons, union_list_cons.
    assert (branches_of n = nb) as -> by (unfold branches_of; by rewrite Hnb).
    by rewrite (assoc_L (∪)).
Qed.

(** X1: merging any number of sightings of a commit into the stored
    record leaves it with the union of all branch sets and every other
    field as it was; the order in which the sightings arrive does not
    matter. *)
Theorem X1_merge_all_union_any_order (original : record) (ob : gset string)
    (news news' : list record) :
  get_branches original = Ok ob →
  Forall (λ n, is_ok (get_branches n) = true) news →
  news ≡ₚ news' →
  ∃ r, merge_all original news = Ok r ∧
       merge_all original news' = Ok r ∧
       get_branches r = Ok (ob ∪ ⋃ (branches_of <$> news)) ∧
       ∀ k, k ≠ "branches" → r !! k = original !! k.
Proof.
  intros Ho Hall Hperm.
  assert (Forall (λ n, is_ok (get_branches n) = true) news') as Hall'
    by (by rewrite <- Hperm).
  rewrite (merge_all_result news original ob Ho Hall).
  rewrite (merge_all_result news' original ob Ho Hall').
  assert (⋃ (branches_of <$> news') = ⋃ (branches_of <$> news)) as ->.
  { apply leibniz_equiv. by rewrite Hperm. }
  eexists. split_and!; [done | done | apply get_branches_insert |].
  intros k Hk. by rewrite lookup_insert_ne.
Qed.

Lemma X1_merge_all_union_any_order_witness :
  let c0 := commit_on "c0ffee" {[ "master" ]} in
  let s1 := commit_on "c0ffee" {[ "stable/juno" ]} in
  let s2 := commit_on "c0ffee" {[ "master"; "stable/kilo" ]} in
  ∃ r, merge_all c0 [s1; s2] = Ok r ∧
       merge_all c0 [s2; s1] = Ok r ∧
       get_branches r = Ok ({[ "master" ]} ∪ ⋃ (branches_of <$> [s1; s2])) ∧
       ∀ k, k ≠ "branches" → r !! k = c0 !! k.
Proof.
  intros c0 s1 s2.
  apply (X1_merge_all_union_any_order c0 {[ "master" ]} [s1; s2] [s2; s1]).
  - reflexivity.
  - repeat constructor.
  - apply Permutation_swap.
Defined.

(** X2: [_merge_commits] subscripts ['branches'] on the incoming record
    first: without that key there it raises [KeyError], whatever the
    stored record looks like; with it there and no such key in the
    stored record it raises [KeyError] as well.  No record comes back
    in either case. *)
Theorem X2_merge_commits_missing_branches (original new : record) :
  (new !! "branches" = None →
   _merge_commits original new = Raise (KeyError "branches")) ∧
  (is_ok (get_branches new) = true → original !! "branches" = None →
   _merge_commits original new = Raise (KeyError "branches")).
Proof.
  unfold _merge_commits, get_branches. split.
  - by intros ->.
  - intros Hn Ho. rewrite Ho.
    by destruct (new !! "branches") as [[| |nb]|].
Qed.

Lemma X2_merge_commits_missing_branches_witness :
  _merge_commits (commit_on "c0ffee" {[ "master" ]}) {[ "primary_key" := VStr "c0ffee" ]}
    = Raise (KeyError "branches") ∧
  _merge_commits {[ "primary_key" := VStr "c0ffee" ]} (commit_on "c0ffee" {[ "master" ]})
    = Raise (KeyError "branches").
Proof.
  split.
  - apply (proj1 (X2_merge_commits_missing_branches
                    (commit_on "c0ffee" {[ "master" ]})
                    {[ "primary_key" := VStr "c0ffee" ]})).
    reflexivity.
  - apply (proj2 (X2_merge_commits_missing_branches
                    {[ "primary_key" := VStr "c0ffee" ]}
                    (commit_on "c0ffee" {[ "master" ]}))); reflexivity.
Defined.

(** ** More on the record typer *)

(** X3: the typer on any stream, also one that raises: it yields the
    typed version of what the stream yields and ends the way the stream
    ends, passing the same exception on; a record that already has a
    ['record_type'] gets it overwritten, so typing twice is typing with
    the last label. *)
Theorem X3_record_typer_any_stream (s : stream record) (a b : string) :
  yielded (_record_typer s a) = set_record_type a <$> yielded s ∧
  raised (_record_typer s a) = raised s ∧
  _record_typer (_record_typer s a) b = _record_typer s b.
Proof.
  split_and!.
  - apply _record_typer_yielded.
  - apply _record_typer_raised.
  - induction s as [|r s IH|e]; simpl; [done| |done].
    rewrite IH. f_equal. unfold set_record_type. apply insert_insert_eq.
Qed.

(** ** More on [process_repo] *)

Lemma rcs_key_inj C uri b b' : rcs_key C uri b = rcs_key C uri b' → b = b'.
Proof.
  unfold rcs_key. intros H.
  apply (inj (String.app _)) in H. apply (inj (String.app _)) in H.
  by apply (inj (String.app _)) in H.
Qed.

Lemma process_branch_keeps_review C r b a id st :
  rcs_get_last_id C r a = Ok id →
  kv st !! rcs_key C (repo_uri r) a = Some (SToken id) →
  kv (process_branch C r b st).2 !! rcs_key C (repo_uri r) a = Some (SToken id).
Proof.
  intros Hid Hkv. rewrite process_branch_run.
  assert (kv (commit_phase C r b st).2 !! rcs_key C (repo_uri r) a
          = Some (SToken id)) as Hc.
  { destruct (commit_phase_kv C r b st) as [(id' & _ & _ & ->)|(e & _ & ->)];
      [|done].
    rewrite lookup_insert_ne; [done|]. apply vcs_key_not_rcs_key. }
  destruct (commit_phase C r b st) as [[u|e] st1]; simpl in *; [|done].
  destruct (review_phase_kv C r b st1) as [(id' & _ & Hid' & ->)|(e & _ & ->)];
    [|done].
  destruct (decide (b = a)) as [->|Hne].
  - rewrite lookup_insert_eq. congruence.
  - rewrite lookup_insert_ne; [done|]. intros ?%rcs_key_inj. done.
Qed.

Lemma process_branch_sets_review C r b st :
  (process_branch C r b st).1 = Ok tt →
  ∃ id, rcs_get_last_id C r b = Ok id ∧
        kv (process_branch C r b st).2 !! rcs_key C (repo_uri r) b
        = Some (SToken id).
Proof.
  rewrite process_branch_run.
  destruct (commit_phase C r b st) as [[u|e] st1]; simpl; [|done].
  intros Hok.
  destruct (review_phase_kv C r b st1) as [(id & _ & Hid & ->)|(e & He & _)].
  - exists id. split; [done | apply lookup_insert_eq].
  - congruence.
Qed.

Lemma for_each_branch_keeps_review C r l a id st :
  rcs_get_last_id C r a = Ok id →
  kv st !! rcs_key C (repo_uri r) a = Some (SToken id) →
  kv (for_each l (process_branch C r) st).2 !! rcs_key C (repo_uri r) a
  = Some (SToken id).
Proof.
  intros Hid. revert st. induction l as [|b l IH]; intros st Hkv; [done|].
  rewrite for_each_cons.
  pose proof (process_branch_keeps_review C r b a id st Hid Hkv) as Hk.
  destruct (process_branch C r b st) as [[u|e] st1]; simpl in *; auto.
Qed.

Lemma for_each_branch_sets_review C r l st :
  (for_each l (process_branch C r) st).1 = Ok tt →
  ∀ b, b ∈ l →
    ∃ id, rcs_get_last_id C r b = Ok id ∧
          kv (for_each l (process_branch C r) st).2 !! rcs_key C (repo_uri r) b
          = Some (SToken id).
Proof.
  revert st. induction l as [|a l IH]; intros st Hok b Hb.
  - by apply elem_of_nil in Hb.
  - revert Hok. rewrite for_each_cons.
    pose proof (process_branch_sets_review C r a st) as Hs.
    destruct (process_branch C r a st) as [[u|e] st1]; simpl in *; [|done].
    intros Hok. destruct u.
    destruct (decide (b = a)) as [->|Hne].
    + destruct (Hs eq_refl) as (id & Hid & Hkv). exists id. split; [done|].
      by apply for_each_branch_keeps_review.
    + apply IH; [done|]. apply elem_of_cons in Hb as [?|?]; done.
Qed.

(** X4: when [process_repo] returns, the review cursor of every branch
    of the repository, under ['rcs:<uri>:<branch>'], holds what the
    review adapter's [get_last_id] returns for that branch. *)
Theorem X4_review_cursor_is_adapter_head (C : collaborators) (r : repo)
    (st : storage) (branches : gset string) (b : string) :
  resolve_branches r = Ok branches → b ∈ branches →
  (process_repo C r st).1 = Ok tt →
  ∃ id, rcs_get_last_id C r b = Ok id ∧
        kv (process_repo C r st).2 !! rcs_key C (repo_uri r) b
        = Some (SToken id).
Proof.
  intros Hbs Hb. rewrite process_repo_run, Hbs.
  destruct (vcs_fetch C r); [|done]. destruct (rcs_setup C r); [|done].
  simpl. intros Hok. apply for_each_branch_sets_review; [done|].
  by apply elem_of_elements.
Qed.

Lemma X4_review_cursor_is_adapter_head_witness :
  resolve_branches repo_b = Ok {[ "master"; "stable/kilo" ]} ∧
  (process_repo steady repo_b blank).1 = Ok tt ∧
  ∃ id, rcs_get_last_id steady repo_b "stable/kilo" = Ok id ∧
        kv (process_repo steady repo_b blank).2
          !! rcs_key steady (repo_uri repo_b) "stable/kilo" = Some (SToken id).
Proof.
  split; [vm_compute; reflexivity|]. split; [vm_compute; reflexivity|].
  apply (X4_review_cursor_is_adapter_head steady repo_b blank
           {[ "master"; "stable/kilo" ]} "stable/kilo").
  - vm_compute; reflexivity.
  - apply (bool_decide_unpack _). vm_compute. exact I.
  - vm_compute; reflexivity.
Defined.

Lemma process_branch_frame C r b st key :
  key ≠ vcs_key C (repo_uri r) b → key ≠ rcs_key C (repo_uri r) b →
  kv (process_branch C r b st).2 !! key = kv st !! key.
Proof.
  intros Hv Hr. rewrite process_branch_run.
  assert (kv (commit_phase C r b st).2 !! key = kv st !! key) as Hc.
  { destruct (commit_phase_kv C r b st) as [(id' & _ & _ & ->)|(e & _ & ->)];
      [|done].
    by rewrite lookup_insert_ne. }
  destruct (commit_phase C r b st) as [[u|e] st1]; simpl in *; [|done].
  destruct (review_phase_kv C r b st1) as [(id' & _ & _ & ->)|(e & _ & ->)];
    [|done].
  by rewrite lookup_insert_ne.
Qed.

Lemma for_each_branch_frame C r l st key :
  (∀ b, b ∈ l →
     key ≠ vcs_key C (repo_uri r) b ∧ key ≠ rcs_key C (repo_uri r) b) →
  kv (for_each l (process_branch C r) st).2 !! key = kv st !! key.
Proof.
  revert st. induction l as [|a l IH]; intros st Hkey; [done|].
  rewrite for_each_cons.
  destruct (Hkey a) as [Hv Hr]; [apply list_elem_of_here|].
  pose proof (process_branch_frame C r a st key Hv Hr) as Hf.
  destruct (process_branch C r a st) as [[u|e] st1]; simpl in *; [|done].
  rewrite IH; [done|]. intros b Hb. apply Hkey. by apply list_elem_of_further.
Qed.

(** X5: whatever [process_repo] does and however it ends, the only
    stored keys it changes are the commit and review cursors of the
    repository's branches; in particular the stored lists of
    repositories and mailing lists are never touched. *)
Theorem X5_process_repo_writes_only_cursors (C : collaborators) (r : repo)
    (st : storage) :
  (∀ key,
     (∀ branches b, resolve_branches r = Ok branches → b ∈ branches →
        key ≠ vcs_key C (repo_uri r) b ∧ key ≠ rcs_key C (repo_uri r) b) →
     kv (process_repo C r st).2 !! key = kv st !! key) ∧
  kv (process_repo C r st).2 !! "repos" = kv st !! "repos" ∧
  kv (process_repo C r st).2 !! "mail_lists" = kv st !! "mail_lists".
Proof.
  assert (∀ key,
     (∀ branches b, resolve_branches r = Ok branches → b ∈ branches →
        key ≠ vcs_key C (repo_uri r) b ∧ key ≠ rcs_key C (repo_uri r) b) →
     kv (process_repo C r st).2 !! key = kv st !! key) as Hframe.
  { intros key Hkey. rewrite process_repo_run.
    destruct (vcs_fetch C r); [|done]. destruct (rcs_setup C r); [|done].
    destruct (resolve_branches r) as [bs|e]; [|done].
    rewrite for_each_branch_frame; [done|].
    intros b Hb. apply (Hkey bs); [done|]. by apply elem_of_elements. }
  split_and!; [done | |]; apply Hframe; intros bs b _ _;
    unfold vcs_key, rcs_key; cbn; split; intros [=].
Qed.

Lemma X5_process_repo_writes_only_cursors_witness :
  kv (process_repo steady repo_b two_repos).2 !! "vcs:git://a:master"
  = kv two_repos !! "vcs:git://a:master".
Proof.
  apply (proj1 (X5_process_repo_writes_only_cursors steady repo_b two_repos)).
  intros bs b _ _. unfold vcs_key, rcs_key. cbn. split; intros [=].
Defined.

Lemma merge_stream_raises p s db e' :
  raised s = Some e' → ∃ e db', merge_stream p s db = (Raise e, db').
Proof.
  intros Hr. destruct (merge_stream p s db) as [[u|e] db'] eqn:Hm.
  - apply merge_stream_Ok in Hm. congruence.
  - by eexists _, _.
Qed.

(** X6: when the fetch of the repository raises, [process_repo] passes
    the exception on and leaves the storage exactly as it was; when the
    review system's setup raises, nothing but the fetch has happened:
    no cursor is read or written and no record is merged. *)
Theorem X6_fetch_or_setup_failure (C : collaborators) (r : repo) (st : storage)
    (e : exn) :
  (vcs_fetch C r = Raise e → process_repo C r st = (Raise e, st)) ∧
  (vcs_fetch C r = Ok tt → rcs_setup C r = Raise e →
   process_repo C r st =
   (Raise e, {| kv := kv st; recs := recs st;
                trace := trace st ++ [EFetch (repo_uri r)] |})).
Proof.
  rewrite process_repo_run. split.
  - by intros ->.
  - by intros -> ->.
Qed.

Lemma X6_fetch_or_setup_failure_witness :
  (vcs_fetch flaky repo_a = Raise (SourceError "fetch failed") ∧
   process_repo flaky repo_a two_repos
     = (Raise (SourceError "fetch failed"), two_repos)) ∧
  (vcs_fetch no_review repo_a = Ok tt ∧
   rcs_setup no_review repo_a = Raise (SourceError "ssh refused") ∧
   process_repo no_review repo_a blank =
   (Raise (SourceError "ssh refused"),
    {| kv := kv blank; recs := recs blank;
       trace := trace blank ++ [EFetch (repo_uri repo_a)] |})).
Proof.
  split.
  - split; [reflexivity|].
    apply (proj1 (X6_fetch_or_setup_failure flaky repo_a two_repos
                    (SourceError "fetch failed"))).
    reflexivity.
  - split; [reflexivity|]. split; [reflexivity|].
    apply (proj2 (X6_fetch_or_setup_failure no_review repo_a blank
                    (SourceError "ssh refused"))); reflexivity.
Defined.

(** X7: when the commit stream of a branch raises while it is being
    merged, the loop over the branches ends there with an exception:
    the commit cursor of that branch is not written, its review phase
    is not started, the branches after it are not looked at, and
    neither the key-value store nor the trace has changed. *)
Theorem X7_commit_stream_failure_stops_the_loop (C : collaborators) (r : repo)
    (b : string) (rest : list string) (st : storage) (e' : exn) :
  raised (commit_stream C r b (kv st !! vcs_key C (repo_uri r) b)) = Some e' →
  ∃ e db,
    process_branch C r b st
      = (Raise e, {| kv := kv st; recs := db; trace := trace st |}) ∧
    for_each (b :: rest) (process_branch C r) st
      = (Raise e, {| kv := kv st; recs := db; trace := trace st |}).
Proof.
  intros Hraise.
  destruct (merge_stream_raises MergeCommits _ (recs st) e' Hraise)
    as (e & db & Hm).
  exists e, db.
  assert (process_branch C r b st
          = (Raise e, {| kv := kv st; recs := db; trace := trace st |})) as Hb.
  { unfold process_branch, commit_phase, mbind, M_bind, get_by_key, set_records.
    simpl. unfold commit_stream in Hm. by rewrite Hm. }
  split; [done|]. by rewrite for_each_cons, Hb.
Qed.

Lemma X7_commit_stream_failure_stops_the_loop_witness :
  raised (commit_stream broken_log repo_b "master"
            (kv blank !! vcs_key broken_log (repo_uri repo_b) "master"))
    = Some (SourceError "git log failed") ∧
  ∃ e db,
    process_branch broken_log repo_b "master" blank
      = (Raise e, {| kv := kv blank; recs := db; trace := trace blank |}) ∧
    for_each ("master" :: ["stable/kilo"]) (process_branch broken_log repo_b) blank
      = (Raise e, {| kv := kv blank; recs := db; trace := trace blank |}).
Proof.
  split; [reflexivity|].
  apply (X7_commit_stream_failure_stops_the_loop broken_log repo_b "master"
           ["stable/kilo"] blank (SourceError "git log failed")).
  reflexivity.
Defined.


(** ** Mailing lists and the whole cycle *)

(** X8: the pass over a mailing list.  When it returns normally it
    has made exactly one [set_records] call, without a merge handler, on
    the adapter's stream typed ['email'] and consumed to its end, and
    the key-value store is as the adapter left it: the function writes
    no key of its own.  When it raises, no call has completed. *)
Theorem X8_process_mail_list_effects (C : collaborators) (uri : string)
    (st : storage) :
  let s := rp_process C (_record_typer (mls_log C uri st).1 "email") in
  (process_mail_list C uri st).1 = Ok tt ∧ raised s = None ∧
  trace (process_mail_list C uri st).2
  = trace st ++ [ESetRecords NoMerge (yielded s)] ∧
  kv (process_mail_list C uri st).2 = (mls_log C uri st).2
  ∨
  (∃ e, (process_mail_list C uri st).1 = Raise e) ∧
  trace (process_mail_list C uri st).2 = trace st.
Proof.
  unfold process_mail_list, mbind, M_bind, adapter_writes, set_records. simpl.
  destruct (merge_stream NoMerge _ (recs st)) as [[u|e] db] eqn:Hm; simpl.
  - left. apply merge_stream_Ok in Hm. done.
  - right. eauto.
Qed.

Example process_mail_list_keeps_adapter_state :
  let st := (process_mail_list archiving "http://lists/dev" two_repos).2 in
  kv st !! "mail_link:http://lists/dev" = Some (SToken "2015-June") ∧
  kv st !! "repos" = kv two_repos !! "repos" ∧
  trace st = [ESetRecords NoMerge
                [ {[ "primary_key" := VStr "mail-1";
                     "record_type" := VStr "email" ]} ]].
Proof. vm_compute. done. Qed.

Lemma fetches_app l1 l2 : fetches (l1 ++ l2) = fetches l1 ++ fetches l2.
Proof. apply omap_app. Qed.

Lemma silent_ret {A} (a : A) : silent (mret a).
Proof.
  intros st. exists []. rewrite app_nil_r. split_and!; [done..|].
  apply not_elem_of_nil.
Qed.

Lemma silent_bind {A B} (m : M A) (f : A → M B) :
  silent m → (∀ a, silent (f a)) → silent (m ≫= f).
Proof.
  intros Hm Hf st. destruct (Hm st) as (seg1 & Ht1 & Hf1 & Hu1).
  unfold mbind, M_bind. destruct (m st) as [[a|e] st1]; simpl in *.
  - destruct (Hf a st1) as (seg2 & Ht2 & Hf2 & Hu2).
    exists (seg1 ++ seg2). split_and!.
    + by rewrite Ht2, Ht1, app_assoc.
    + by rewrite fetches_app, Hf1, Hf2.
    + rewrite elem_of_app. by intros [?|?].
  - by exists seg1.
Qed.

Lemma silent_for_each {A} (l : list A) (body : A → M unit) :
  (∀ a, silent (body a)) → silent (for_each l body).
Proof.
  intros Hbody. induction l as [|a l IH]; simpl.
  - apply silent_ret.
  - apply silent_bind; auto.
Qed.

Lemma silent_set_records s p : silent (set_records s p).
Proof.
  intros st. unfold set_records.
  destruct (merge_stream p s (recs st)) as [[u|e] db]; simpl.
  - exists [ESetRecords p (yielded s)]. split_and!; [done..|].
    intros [=]%list_elem_of_singleton.
  - exists []. rewrite app_nil_r. split_and!; [done..|]. apply not_elem_of_nil.
Qed.

Lemma silent_set_by_key key v : silent (set_by_key key v).
Proof.
  intros st. exists [ESetByKey key v]. split_and!; [done..|].
  intros [=]%list_elem_of_singleton.
Qed.

Lemma silent_lift {A} (x : result A) : silent (lift x).
Proof.
  intros st. exists []. rewrite app_nil_r. split_and!; [done..|].
  apply not_elem_of_nil.
Qed.

Lemma silent_get_by_key key : silent (get_by_key key).
Proof.
  intros st. exists []. rewrite app_nil_r. split_and!; [done..|].
  apply not_elem_of_nil.
Qed.

Lemma silent_merge_then_set key s p (last : result string) :
  silent (last_id ← get_by_key key;
          set_records (s last_id) p ;;
          last_id ← lift last; set_by_key key (SToken last_id)).
Proof.
  apply silent_bind; [apply silent_get_by_key|]. intros last_id.
  apply silent_bind; [apply silent_set_records|]. intros _.
  apply silent_bind; [apply silent_lift|]. intros id.
  apply silent_set_by_key.
Qed.

Lemma silent_process_branch C r b : silent (process_branch C r b).
Proof.
  unfold process_branch. apply silent_bind.
  - apply (silent_merge_then_set _
             (λ last_id, rp_process C (_record_typer (vcs_log C r b last_id) "commit"))).
  - intros _.
    apply (silent_merge_then_set _
             (λ last_id, rp_process C (_record_typer (rcs_log C r b last_id) "review"))).
Qed.

Lemma silent_adapter_writes kv' : silent (adapter_writes kv').
Proof.
  intros st. exists []. rewrite app_nil_r. split_and!; [done..|].
  apply not_elem_of_nil.
Qed.

Lemma silent_process_mail_list C uri : silent (process_mail_list C uri).
Proof.
  unfold process_mail_list. apply silent_bind.
  - intros st. exists []. rewrite app_nil_r. split_and!; [done..|].
    apply not_elem_of_nil.
  - intros log. apply silent_bind; [apply silent_adapter_writes|].
    intros _. apply silent_set_records.
Qed.

(** A pass over a repository that returns normally has fetched that
    repository once and nothing else. *)
Lemma process_repo_fetches C r st :
  (process_repo C r st).1 = Ok tt →
  ∃ seg, trace (process_repo C r st).2 = trace st ++ seg ∧
         fetches seg = [repo_uri r] ∧ EUpdate ∉ seg.
Proof.
  rewrite process_repo_run.
  destruct (vcs_fetch C r); [|done]. destruct (rcs_setup C r); [|done].
  destruct (resolve_branches r) as [bs|e]; [|done]. simpl. intros _.
  destruct (silent_for_each (elements bs) (process_branch C r)
              (silent_process_branch C r)
              {| kv := kv st; recs := recs st;
                 trace := trace st ++ [EFetch (repo_uri r)] |})
    as (seg & Ht & Hf & Hu).
  exists (EFetch (repo_uri r) :: seg). split_and!.
  - rewrite Ht. simpl. by rewrite <- app_assoc.
  - simpl. fold (fetches seg). by rewrite Hf.
  - rewrite elem_of_cons. by intros [[=]|?].
Qed.

Lemma for_each_repo_fetches C repos : ∀ st,
  (for_each repos (process_repo C) st).1 = Ok tt →
  ∃ seg, trace (for_each repos (process_repo C) st).2 = trace st ++ seg ∧
         fetches seg = repo_uri <$> repos ∧ EUpdate ∉ seg.
Proof.
  induction repos as [|r repos IH]; intros st.
  - intros _. exists []. rewrite app_nil_r. split_and!; [done..|].
    apply not_elem_of_nil.
  - rewrite for_each_cons.
    pose proof (process_repo_fetches C r st) as Hr.
    destruct (process_repo C r st) as [[[]|e] st1]; simpl in *; [|done].
    intros Hok. destruct (Hr eq_refl) as (seg1 & Ht1 & Hf1 & Hu1).
    destruct (IH st1 Hok) as (seg2 & Ht2 & Hf2 & Hu2).
    exists (seg1 ++ seg2). split_and!.
    + by rewrite Ht2, Ht1, app_assoc.
    + by rewrite fetches_app, Hf1, Hf2.
    + rewrite elem_of_app. by intros [?|?].
Qed.

(** X9: a cycle of [update_records] that returns normally has fetched
    every stored repository, once each and in the stored order, and has
    called the record processor's [update] exactly once, as its last
    step. *)
Theorem X9_update_records_on_success (C : collaborators) (st : storage)
    (repos : list repo) :
  kv st !! "repos" = Some (SRepos repos) →
  (update_records C st).1 = Ok tt →
  ∃ seg,
    trace (update_records C st).2 = trace st ++ seg ++ [EUpdate] ∧
    fetches seg = repo_uri <$> repos ∧
    EUpdate ∉ seg.
Proof.
  intros Hrepos. rewrite update_records_run, (load_repos_stored _ _ Hrepos).
  pose proof (for_each_repo_fetches C repos st) as Hr.
  destruct (for_each repos (process_repo C) st) as [[[]|e] st1]; simpl in *;
    [|done].
  destruct (Hr eq_refl) as (seg1 & Ht1 & Hf1 & Hu1).
  assert ((load_mail_lists st1).2 = st1) as Hsame.
  { unfold load_mail_lists, mbind, M_bind, get_by_key. simpl.
    by destruct (kv st1 !! "mail_lists") as [[]|]. }
  destruct (load_mail_lists st1) as [[ml|e] st1']; simpl in Hsame; subst st1';
    [|done].
  destruct (silent_for_each ml (process_mail_list C)
              (silent_process_mail_list C) st1) as (seg2 & Ht2 & Hf2 & Hu2).
  destruct (for_each ml (process_mail_list C) st1) as [[[]|e] st2]; simpl in *;
    [|done].
  destruct (rp_update C) as [[]|e]; [|done]. simpl. intros _.
  exists (seg1 ++ seg2). split_and!.
  - by rewrite Ht2, Ht1, !app_assoc.
  - by rewrite fetches_app, Hf1, Hf2, app_nil_r.
  - rewrite elem_of_app. by intros [?|?].
Qed.

Lemma X9_update_records_on_success_witness :
  kv two_repos !! "repos" = Some (SRepos [repo_a; repo_b]) ∧
  (update_records steady two_repos).1 = Ok tt ∧
  ∃ seg,
    trace (update_records steady two_repos).2 = trace two_repos ++ seg ++ [EUpdate] ∧
    fetches seg = repo_uri <$> [repo_a; repo_b] ∧
    EUpdate ∉ seg.
Proof.
  split; [reflexivity|]. split; [vm_compute; reflexivity|].
  apply (X9_update_records_on_success steady two_repos [repo_a; repo_b]).
  - reflexivity.
  - vm_compute; reflexivity.
Defined.

(** X10: [apply_corrections] on the odd documents.  An empty document
    counts as unreadable: the call returns without touching the
    storage.  A document that has entries but no ['corrections'] key
    makes the call raise [KeyError], again with the storage untouched. *)
Theorem X10_apply_corrections_odd_documents (C : collaborators) (uri : string)
    (st : storage) :
  (read_json_from_uri C uri = Some ∅ →
   apply_corrections C uri st = (Ok tt, st)) ∧
  (∀ doc, read_json_from_uri C uri = Some doc → doc ≠ ∅ →
     doc !! "corrections" = None →
     apply_corrections C uri st = (Raise (KeyError "corrections"), st)).
Proof.
  unfold apply_corrections. split.
  - intros ->. by rewrite bool_decide_eq_true_2.
  - intros doc -> Hne Hnone. rewrite bool_decide_eq_false_2 by done.
    by rewrite Hnone.
Qed.

Lemma X10_apply_corrections_odd_documents_witness :
  apply_corrections odd_document "file:///empty.json" blank = (Ok tt, blank) ∧
  apply_corrections odd_document "file:///fixes.json" blank
    = (Raise (KeyError "corrections"), blank).
Proof.
  split.
  - apply (proj1 (X10_apply_corrections_odd_documents odd_document
                    "file:///empty.json" blank)).
    reflexivity.
  - apply (proj2 (X10_apply_corrections_odd_documents odd_document
                    "file:///fixes.json" blank)
             {[ "fixes" := sample_corrections ]}).
    + reflexivity.
    + apply insert_non_empty.
    + reflexivity.
Defined.

(** ** More on the taxonomy builder *)

Lemma split_slash_cons s : ∃ h t, split_slash s = h :: t.
Proof.
  destruct s as [|c s]; simpl; [by eexists _, _|].
  case_bool_decide; [by eexists _, _|].
  destruct (split_slash s); by eexists _, _.
Qed.

Lemma split_slash_second s : is_Some (split_slash s !! 1%nat) ↔ has_slash s = true.
Proof.
  induction s as [|c s IH]; simpl.
  - split; [by intros [? ?] | done].
  - destruct (split_slash_cons s) as (h & t & Hs). rewrite Hs in *.
    case_bool_decide as Hc; simpl.
    + split; [done | by eauto].
    + done.
Qed.

Lemma process_module_Ok_iff group_id rn mg module :
  (∃ mg', process_module group_id rn mg module = Ok mg') ↔
  is_Some (module_name_of module).
Proof.
  unfold process_module, module_name_of.
  destruct (module !! "repo") as [path|]; simpl.
  - destruct (split_slash path !! 1%nat) as [mname|]; simpl.
    + split; [by eauto|]. intros _. destruct (has_release_tag module); eauto.
    + split; [by intros [? ?] | by intros [? ?]].
  - split; [by intros [? ?] | by intros [? ?]].
Qed.

Lemma process_modules_Ok_iff group_id rn modules : ∀ mg,
  (∃ mg', process_modules group_id rn modules mg = Ok mg') ↔
  Forall (λ m, is_Some (module_name_of m)) modules.
Proof.
  induction modules as [|m modules IH]; intros mg; simpl.
  - split; [by constructor | by eauto].
  - rewrite Forall_cons, <- (process_module_Ok_iff group_id rn mg m).
    destruct (process_module group_id rn mg m) as [mg1|e].
    + rewrite IH. split; [by eauto | by intros [_ ?]].
    + split; [by intros [? ?] | by intros [[? ?] _]].
Qed.

Lemma process_programs_Ok_iff rn content : ∀ mg,
  (∃ mg', process_programs rn content mg = Ok mg') ↔
  Forall well_formed_program content.
Proof.
  induction content as [|[name i] content IH]; intros mg; simpl.
  - split; [by constructor | by eauto].
  - rewrite Forall_cons. unfold process_program, well_formed_program at 1. simpl.
    destruct (info_projects i) as [modules|].
    + destruct (process_modules _ rn modules _) as [mg1|e] eqn:Hm.
      * rewrite IH. split; [|by intros [_ ?]]. intros Hall. split; [|done].
        exists modules. split; [done|].
        eapply (proj1 (process_modules_Ok_iff _ rn modules _)). eauto.
      * split; [by intros [? ?]|]. intros [(ms & [= <-] & Hall) _].
        destruct (proj2 (process_modules_Ok_iff (program_group_id name i) rn
                           modules
                           (touch (program_group_id name i) (set_tag "program")
                              (touch (program_group_id name i)
                                 (set_name (program_group_name name i)) mg)))
                    Hall) as [mg' Hmg'].
        congruence.
    + split; [by intros [? ?] | by intros [(? & [=] & _) _]].
Qed.

(** X11: the taxonomy builder returns a taxonomy exactly when every
    program of the feed has a ['projects'] list and every module entry
    in it has a ['repo'] with a slash in it; one entry that lacks either
    makes the whole call raise.  Nothing is skipped. *)
Theorem X11_feed_accepted_iff_well_formed (content : list (string * info))
    (release_names : list string) :
  ((∃ mg, _read_official_programs_yaml (Some content) release_names = Ok mg) ↔
   Forall well_formed_program content) ∧
  (∀ module : module_entry,
     is_Some (module_name_of module) ↔
     ∃ path, module !! "repo" = Some path ∧ has_slash path = true).
Proof.
  split.
  - rewrite <- (process_programs_Ok_iff release_names content initial_groups).
    unfold _read_official_programs_yaml.
    destruct (process_programs release_names content initial_groups);
      split; intros [? ?]; by eauto.
  - intros module. unfold module_name_of.
    destruct (module !! "repo") as [path|]; simpl.
    + rewrite split_slash_second. split; [by eauto|]. by intros (? & [= <-] & ?).
    + split; [by intros [? ?] | by intros (? & [=] & _)].
Qed.







Lemma X11_feed_accepted_iff_well_formed_witness :
  Forall well_formed_program (compute_feed nova_entry) ∧
  ∃ mg, _read_official_programs_yaml (Some (compute_feed nova_entry)) ["kilo"]
        = Ok mg.
Proof.
  assert (Forall well_formed_program (compute_feed nova_entry)) as Hwf.
  { apply Forall_cons. split; [|apply Forall_nil_2].
    exists [nova_entry]. split; [reflexivity|].
    apply Forall_cons. split; [|apply Forall_nil_2].
    exists "nova". reflexivity. }
  split; [exact Hwf|].
  apply (proj2 (proj1 (X11_feed_accepted_iff_well_formed
                         (compute_feed nova_entry) ["kilo"]))).
  exact Hwf.
Defined.

Lemma bucket_walk_releases (module : module_entry) m releases :
  ∀ pt mg gid rel,
    bucket (walk_releases module m pt releases mg) gid rel =
    bucket mg gid rel ++
    replicate (length (filter (λ p, p = (gid, rel)) (placements module pt releases))) m.
Proof.
  induction releases as [|rn releases IH]; intros pt mg gid rel; simpl.
  - by rewrite app_nil_r.
  - rewrite IH, bucket_touch_add_release, <- app_assoc. f_equal.
    rewrite filter_cons. unfold lands_in.
    destruct (decide ((next_project_type module pt rn, rn) = (gid, rel)))
      as [Heq|Hne].
    + rewrite bool_decide_eq_true_2; [done|].
      apply list_elem_of_singleton. done.
    + rewrite bool_decide_eq_false_2; [done|].
      intros Hin%list_elem_of_singleton. done.
Qed.

Lemma placements_snd (module : module_entry) releases :
  ∀ pt, (placements module pt releases).*2 = releases.
Proof.
  induction releases as [|rn releases IH]; intros pt; simpl; [done|].
  by rewrite IH.
Qed.

Lemma next_project_type_range (module : module_entry) pt rn :
  next_project_type module pt rn ∈ pt :: official_ids.
Proof.
  unfold next_project_type, official_ids.
  repeat case_bool_decide;
    repeat first [apply list_elem_of_here | apply list_elem_of_further].
Qed.

Lemma placements_range (module : module_entry) releases :
  ∀ pt, Forall (λ p, p.1 ∈ pt :: official_ids) (placements module pt releases).
Proof.
  induction releases as [|rn releases IH]; intros pt; simpl.
  - apply Forall_nil_2.
  - pose proof (next_project_type_range module pt rn) as Hpt.
    apply Forall_cons. split; [done|].
    eapply Forall_impl; [apply IH|]. intros [g r] Hg. simpl in *.
    apply elem_of_cons in Hg as [->|Hg]; [done|].
    by apply list_elem_of_further.
Qed.

(** X13: what a module entry with a status field adds to the release
    buckets, on any release list: the module is filed once for every
    release of the list, in order, each time under the project type
    current at that release, which is ['official-other'] or one of the
    four fixed groups; nothing else changes in any bucket. *)
Theorem X13_one_placement_per_release (group_id : string)
    (release_names : list string) (mg : gmap string group)
    (module : module_entry) (mname : string) :
  module_name_of module = Some mname → has_release_tag module = true →
  let ps := placements module "official-other" (lower <$> release_names) in
  ∃ mg', process_module group_id release_names mg module = Ok mg' ∧
    (∀ gid rel,
       bucket mg' gid rel =
       bucket mg gid rel ++
       replicate (length (filter (λ p, p = (gid, rel)) ps)) mname) ∧
    ps.*2 = lower <$> release_names ∧
    Forall (λ p, p.1 ∈ "official-other" :: official_ids) ps.
Proof.
  intros Hname Htag ps. unfold process_module, module_name_of in *.
  destruct (module !! "repo") as [path|]; [|done]. simpl in Hname.
  rewrite Hname, Htag. eexists. split; [reflexivity|]. split_and!.
  - intros gid rel. rewrite bucket_walk_releases.
    by rewrite bucket_touch_keep.
  - apply placements_snd.
  - apply placements_range.
Qed.

Lemma X13_one_placement_per_release_witness :
  module_name_of nova_entry = Some "nova" ∧
  has_release_tag nova_entry = true ∧
  ∃ mg', process_module "nova-group" ["Icehouse"; "Juno"; "Kilo"; "Liberty"]
           initial_groups nova_entry = Ok mg' ∧
         bucket mg' "official-mature" "liberty" = ["nova"].
Proof.
  split; [reflexivity|]. split; [reflexivity|].
  destruct (X13_one_placement_per_release "nova-group"
              ["Icehouse"; "Juno"; "Kilo"; "Liberty"] initial_groups
              nova_entry "nova" eq_refl eq_refl) as (mg' & Hrun & Hb & _).
  exists mg'. split; [exact Hrun|].
  rewrite Hb, bucket_initial_groups. reflexivity.
Defined.

Lemma next_project_type_only (module : module_entry) t g r :
  (t, g) ∈ status_groups → module !! t = Some r →
  (∀ t', t' ∈ RELEASE_TAGS → t' ≠ t → module !! t' = None) →
  ∀ pt rn, next_project_type module pt rn = if bool_decide (rn = r) then g else pt.
Proof.
  intros Hin Ht Hothers pt rn.
  assert (∀ t', t' ∈ RELEASE_TAGS → t' ≠ t →
            bool_decide (module !! t' = Some rn) = false) as Hoff.
  { intros t' Ht' Hne. rewrite (Hothers t' Ht' Hne). by apply bool_decide_eq_false_2. }
  assert (bool_decide (module !! t = Some rn) = bool_decide (rn = r)) as Hon.
  { rewrite Ht. apply bool_decide_ext. split; congruence. }
  unfold status_groups in Hin. unfold next_project_type.
  repeat (apply elem_of_cons in Hin as [Hin|Hin]);
    [injection Hin as -> ->..|by apply elem_of_nil in Hin];
    rewrite ?Hon;
    rewrite ?Hoff by
      (first [discriminate
             | unfold RELEASE_TAGS;
               repeat first [apply list_elem_of_here | apply list_elem_of_further]]);
    by destruct (bool_decide (rn = r)).
Qed.

(** X14: a module with exactly one status field, reached at release
    [r]: on a release list in which [r] first shows up after [before],
    the module is filed under ['official-other'] for the releases of
    [before] and under the group of its status for [r] and for every
    release after it. *)
Theorem X14_status_is_sticky (module : module_entry) (t g r : string)
    (before after : list string) :
  (t, g) ∈ status_groups → module !! t = Some r →
  (∀ t', t' ∈ RELEASE_TAGS → t' ≠ t → module !! t' = None) →
  r ∉ before →
  placements module "official-other" (before ++ r :: after)
  = (("official-other",.) <$> before) ++ ((g,.) <$> r :: after).
Proof.
  intros Hin Ht Hothers Hfresh.
  pose proof (next_project_type_only module t g r Hin Ht Hothers) as Hstep.
  assert (∀ l, placements module g l = (g,.) <$> l) as Hafter.
  { induction l as [|rn l IH]; simpl; [done|].
    rewrite Hstep. destruct (bool_decide (rn = r)); by rewrite IH. }
  induction before as [|rn before IH]; simpl.
  - rewrite Hstep, bool_decide_eq_true_2 by done. by rewrite Hafter.
  - apply not_elem_of_cons in Hfresh as [Hne Hfresh].
    rewrite Hstep, bool_decide_eq_false_2 by done. by rewrite IH.
Qed.

Lemma X14_status_is_sticky_witness :
  placements glance_entry "official-other" (["icehouse"] ++ "juno" :: ["kilo"; "liberty"])
  = (("official-other",.) <$> ["icehouse"])
    ++ (("official-incubation",.) <$> "juno" :: ["kilo"; "liberty"]).
Proof.
  apply (X14_status_is_sticky glance_entry "incubated-since"
           "official-incubation" "juno" ["icehouse"] ["kilo"; "liberty"]).
  - apply list_elem_of_further, list_elem_of_here.
  - reflexivity.
  - intros t' Ht' Hne. unfold RELEASE_TAGS in Ht'.
    repeat (apply elem_of_cons in Ht' as [->|Ht'];
            [first [reflexivity | done]|]).
    by apply elem_of_nil in Ht'.
  - intros [=]%list_elem_of_singleton.
Defined.

Lemma modules_of_touch_keep k f mg gid :
  (∀ g, g_modules (f g) = g_modules g) →
  modules_of (touch k f mg) gid = modules_of mg gid.
Proof.
  intros Hf. unfold modules_of, touch.
  destruct (decide (k = gid)) as [->|Hne].
  - rewrite lookup_insert_eq. simpl. rewrite Hf. by destruct (mg !! gid).
  - by rewrite lookup_insert_ne.
Qed.

Lemma modules_of_touch_add_module k m mg gid :
  modules_of (touch k (add_module m) mg) gid =
  modules_of mg gid ++ (if bool_decide (gid = k) then [m] else []).
Proof.
  unfold modules_of, touch.
  destruct (decide (k = gid)) as [->|Hne].
  - rewrite lookup_insert_eq, bool_decide_eq_true_2 by done. simpl.
    by destruct (mg !! gid).
  - rewrite lookup_insert_ne, bool_decide_eq_false_2 by done.
    by rewrite app_nil_r.
Qed.

Lemma modules_of_walk_releases (module : module_entry) m releases :
  ∀ pt mg gid,
    modules_of (walk_releases module m pt releases mg) gid = modules_of mg gid.
Proof.
  induction releases as [|rn releases IH]; intros pt mg gid; simpl; [done|].
  by rewrite IH, modules_of_touch_keep.
Qed.

Lemma process_module_modules group_id rn mg (m : module_entry) mg' :
  group_id ≠ "other" →
  process_module group_id rn mg m = Ok mg' →
  ∃ mname, module_name_of m = Some mname ∧
    modules_of mg' group_id = modules_of mg group_id ++ [mname] ∧
    modules_of mg' "other" =
      modules_of mg "other" ++ (if has_release_tag m then [] else [mname]).
Proof.
  intros Hne. unfold process_module, module_name_of.
  destruct (m !! "repo") as [path|]; [|done]. simpl.
  destruct (split_slash path !! 1%nat) as [mname|]; [|done].
  destruct (has_release_tag m); intros [= <-]; exists mname;
    (split; [done|]);
    rewrite ?modules_of_walk_releases, !modules_of_touch_add_module;
    rewrite ?(bool_decide_eq_true_2 (group_id = group_id)) by done;
    rewrite ?(bool_decide_eq_true_2 ("other" = "other")) by done;
    rewrite ?(bool_decide_eq_false_2 ("other" = group_id)) by done;
    rewrite ?(bool_decide_eq_false_2 (group_id = "other")) by done;
    by rewrite ?app_nil_r.
Qed.

(** X15: the modules of a program are appended to the program's own
    group in the order of its ['projects'] list, one short name per
    entry, whether or not the entry has a status field; the group
    ['other'] receives, in the same order, the short names of the
    entries without any status field. *)
Theorem X15_program_modules_in_order (group_id : string)
    (release_names : list string) (modules : list module_entry)
    (mg mg' : gmap string group) :
  group_id ≠ "other" →
  process_modules group_id release_names modules mg = Ok mg' →
  modules_of mg' group_id = modules_of mg group_id ++ omap module_name_of modules ∧
  modules_of mg' "other" =
    modules_of mg "other" ++
    omap module_name_of (filter (λ m, has_release_tag m = false) modules).
Proof.
  intros Hne. revert mg. induction modules as [|m modules IH]; intros mg.
  - simpl. intros [= <-]. by rewrite !app_nil_r.
  - cbn [process_modules].
    destruct (process_module group_id release_names mg m) as [mg1|e] eqn:Hm;
      [|done].
    intros Hrest. destruct (IH _ Hrest) as [IH1 IH2]. rewrite IH1, IH2.
    destruct (process_module_modules _ _ _ _ _ Hne Hm)
      as (mname & Hname & -> & ->).
    rewrite filter_cons. cbn [omap list_omap]. rewrite Hname.
    destruct (has_release_tag m) eqn:Htag.
    + rewrite decide_False by done. rewrite app_nil_r.
      by rewrite <- app_assoc.
    + rewrite decide_True by done. cbn [omap list_omap]. rewrite Hname.
      by rewrite <- !app_assoc.
Qed.

Lemma X15_program_modules_in_order_witness :
  ∃ mg', process_modules "nova-group" ["kilo"] [nova_entry; plain_entry; glance_entry]
           initial_groups = Ok mg' ∧
    modules_of mg' "nova-group" = ["nova"; "sandbox"; "glance"] ∧
    modules_of mg' "other" = ["sandbox"].
Proof.
  assert (∃ mg', process_modules "nova-group" ["kilo"]
                   [nova_entry; plain_entry; glance_entry] initial_groups = Ok mg')
    as [mg' Hrun] by (eexists; reflexivity).
  exists mg'. split; [exact Hrun|].
  destruct (X15_program_modules_in_order "nova-group" ["kilo"]
              [nova_entry; plain_entry; glance_entry] initial_groups mg')
    as [H1 H2]; [discriminate | exact Hrun |].
  split; [rewrite H1 | rewrite H2]; reflexivity.
Defined.

(** ** Process discovery *)

Lemma foldl_note_pid ps pids : ∀ acc pid,
  pid ∈ foldl (note_pid ps) acc pids ↔
  pid ∈ acc ∨ (pid ∈ pids ∧ process_name ps pid = Ok "uwsgi").
Proof.
  induction pids as [|p pids IH]; intros acc pid; simpl.
  - split; [by left|]. intros [?|[Hin _]]; [done|]. by apply elem_of_nil in Hin.
  - rewrite IH. unfold note_pid. split.
    + intros [Hacc|[Hin Hname]].
      * destruct (process_name ps p) as [name|e] eqn:Hp; [|by left].
        case_bool_decide as Hn; [|by left].
        apply elem_of_union in Hacc as [?|Hp']; [by left|].
        apply elem_of_singleton in Hp' as ->. right. subst name.
        split; [apply list_elem_of_here | done].
      * right. split; [by apply list_elem_of_further | done].
    + intros [Hacc|[Hin Hname]].
      * left. destruct (process_name ps p) as [name|e]; [|done].
        case_bool_decide; [|done]. apply elem_of_union. by left.
      * apply elem_of_cons in Hin as [->|Hin]; [|by right].
        left. rewrite Hname, bool_decide_eq_true_2 by done.
        apply elem_of_union. right. by apply elem_of_singleton.
Qed.

(** X16: [get_pids] returns exactly the listed pids whose process is
    named ['uwsgi']; a pid whose lookup raises is left out and does not
    make the call fail.  [update_pids] calls the storage's [active_pids]
    with that set when it is not empty and makes no call when no such
    process is running. *)
Theorem X16_pids_of_uwsgi (ps : psutil) :
  (∀ pid, pid ∈ get_pids ps ↔
          pid ∈ get_pid_list ps ∧ process_name ps pid = Ok "uwsgi") ∧
  (update_pids ps = None ↔
   ∀ pid, pid ∈ get_pid_list ps → process_name ps pid ≠ Ok "uwsgi") ∧
  (∀ pids, update_pids ps = Some pids → pids = get_pids ps ∧ pids ≠ ∅).
Proof.
  assert (∀ pid, pid ∈ get_pids ps ↔
                 pid ∈ get_pid_list ps ∧ process_name ps pid = Ok "uwsgi") as Hin.
  { intros pid. unfold get_pids. rewrite foldl_note_pid.
    split; [|by right]. intros [Hempty|?]; [|done].
    by apply elem_of_empty in Hempty. }
  split_and!; [done | |].
  - unfold update_pids. case_bool_decide as Hempty.
    + split; [|done]. intros _ pid Hpid Hname.
      assert (pid ∈ get_pids ps) as Hp by (by apply Hin).
      rewrite Hempty in Hp. by apply elem_of_empty in Hp.
    + split; [done|]. intros Hnone. exfalso. apply Hempty.
      apply leibniz_equiv. apply elem_of_equiv_empty. intros pid Hp.
      apply Hin in Hp as [Hl Hn]. by apply (Hnone pid).
  - unfold update_pids. intros pids. case_bool_decide; [done|].
    by intros [= <-].
Qed.

Lemma X16_pids_of_uwsgi_witness :
  update_pids sample_processes = Some {[ 17%N; 99%N ]} ∧
  {[ 17%N; 99%N ]} = get_pids sample_processes ∧
  ({[ 17%N; 99%N ]} : gset N) ≠ ∅.
Proof.
  assert (update_pids sample_processes = Some {[ 17%N; 99%N ]}) as Hrun
    by (vm_compute; reflexivity).
  split; [exact Hrun|].
  apply (proj2 (proj2 (X16_pids_of_uwsgi sample_processes)) _ Hrun).
Defined.

(** ** Program list *)

Lemma foldl_register_module make modules : ∀ mg k,
  foldl (register_module make) mg modules !! k =
  if bool_decide (k ∈ modules) then Some (make k) else mg !! k.
Proof.
  induction modules as [|m modules IH]; intros mg k; cbn [foldl].
  - rewrite bool_decide_eq_false_2; [done | apply not_elem_of_nil].
  - rewrite IH. unfold register_module.
    destruct (decide (k ∈ modules)) as [Hin|Hnin].
    + rewrite !bool_decide_eq_true_2; [done| |done]. by apply list_elem_of_further.
    + rewrite (bool_decide_eq_false_2 (k ∈ modules)) by done.
      destruct (decide (m = k)) as [->|Hne].
      * rewrite lookup_insert_eq, bool_decide_eq_true_2; [done|].
        apply list_elem_of_here.
      * rewrite lookup_insert_ne by done. rewrite bool_decide_eq_false_2; [done|].
        intros [?|?]%elem_of_cons; done.
Qed.

(** X18: the layers of [process_program_list].  The group stored under
    a key is: for ['unknown'], the module group made for it; else, for
    the module of a stored repository, the module group made for that
    module; else the group of the official taxonomy, built on the
    lower-cased release names without the first one; else the group
    that was persisted before.  Each layer replaces a whole group. *)
Theorem X18_program_list_layers (make : string → group)
    (persisted : option (gmap string group)) (releases : list string)
    (content : option (list (string * info))) (modules : list string)
    (official : gmap string group) :
  _read_official_programs_yaml content (lower <$> drop 1 releases) = Ok official →
  ∃ mg,
    process_program_list make persisted (Some releases) content modules = Ok mg ∧
    ∀ k, mg !! k =
         if bool_decide (k = "unknown") then Some (make "unknown")
         else if bool_decide (k ∈ modules) then Some (make k)
         else match official !! k with
              | Some g => Some g
              | None => default ∅ persisted !! k
              end.
Proof.
  intros Hread. unfold process_program_list. rewrite Hread.
  eexists. split; [reflexivity|]. intros k.
  case_bool_decide as Hk.
  - subst k. apply lookup_insert_eq.
  - rewrite lookup_insert_ne by done. rewrite foldl_register_module.
    case_bool_decide; [done|]. rewrite lookup_union.
    destruct (official !! k) as [g|]; simpl.
    + by destruct (default ∅ persisted !! k).
    + by destruct (default ∅ persisted !! k).
Qed.

Lemma X18_program_list_layers_witness :
  ∃ mg,
    process_program_list module_group_of
      (Some {[ "nova-group" := fresh_group; "legacy" := fresh_group ]})
      (Some ["all"; "Juno"; "Kilo"]) (Some (compute_feed nova_entry))
      ["nova"; "glance"] = Ok mg ∧
    mg !! "unknown" = Some (module_group_of "unknown") ∧
    mg !! "nova" = Some (module_group_of "nova").
Proof.
  assert (∃ official,
            _read_official_programs_yaml (Some (compute_feed nova_entry))
              (lower <$> drop 1 ["all"; "Juno"; "Kilo"]) = Ok official)
    as [official Hread] by (eexists; reflexivity).
  destruct (X18_program_list_layers module_group_of
              (Some {[ "nova-group" := fresh_group; "legacy" := fresh_group ]})
              ["all"; "Juno"; "Kilo"] (Some (compute_feed nova_entry))
              ["nova"; "glance"] official Hread) as (mg & Hrun & Hlook).
  exists mg. split; [exact Hrun|].
  split; rewrite Hlook; reflexivity.
Defined.

(** ** Member lists *)





Example update_members_keeps_adapter_state :
  kv (update_members steady tracking_roster 30 two_rosters).2
    !! "members_seen:http://members/b" = Some (SToken "42").
Proof. vm_compute. reflexivity. Qed.

(** ** Branches and cursors, once more *)

Lemma cursor_keys_app l1 l2 : cursor_keys (l1 ++ l2) = cursor_keys l1 ++ cursor_keys l2.
Proof. apply omap_app. Qed.

Lemma process_branch_cursor_keys C r b st :
  (process_branch C r b st).1 = Ok tt →
  ∃ seg, trace (process_branch C r b st).2 = trace st ++ seg ∧
         cursor_keys seg = [vcs_key C (repo_uri r) b; rcs_key C (repo_uri r) b].
Proof.
  unfold process_branch, commit_phase, review_phase, mbind, M_bind, get_by_key,
    set_records, lift, set_by_key. simpl.
  destruct (merge_stream MergeCommits _ (recs st)) as [[u|e] db]; simpl; [|done].
  destruct (vcs_get_last_id C r b) as [id|e]; simpl; [|done].
  destruct (merge_stream MergeRecords _ db) as [[u'|e] db']; simpl; [|done].
  destruct (rcs_get_last_id C r b) as [id'|e]; simpl; [|done].
  intros _. eexists. split.
  - rewrite <- !app_assoc. reflexivity.
  - reflexivity.
Qed.

Lemma for_each_branch_cursor_keys C r l : ∀ st,
  (for_each l (process_branch C r) st).1 = Ok tt →
  ∃ seg, trace (for_each l (process_branch C r) st).2 = trace st ++ seg ∧
         cursor_keys seg
         = l ≫= λ b, [vcs_key C (repo_uri r) b; rcs_key C (repo_uri r) b].
Proof.
  induction l as [|b l IH]; intros st.
  - intros _. exists []. by rewrite app_nil_r.
  - rewrite for_each_cons.
    pose proof (process_branch_cursor_keys C r b st) as Hb.
    destruct (process_branch C r b st) as [[[]|e] st1]; simpl in *; [|done].
    intros Hok. destruct (Hb eq_refl) as (seg1 & Ht1 & Hk1).
    destruct (IH st1 Hok) as (seg2 & Ht2 & Hk2).
    exists (seg1 ++ seg2). split.
    + by rewrite Ht2, Ht1, app_assoc.
    + by rewrite cursor_keys_app, Hk1, Hk2.
Qed.

(** X19: for a repository that has a ['releases'] list, a pass that
    returns normally has synchronized exactly the branches ['master']
    and the ['branch'] of every release that names one: these are the
    branches resolved, and the cursors written are, branch by branch,
    the commit cursor and then the review cursor of each. *)
Theorem X19_branches_synchronized (C : collaborators) (r : repo) (st : storage)
    (releases : list release) :
  repo_releases r = Some releases →
  (process_repo C r st).1 = Ok tt →
  ∃ branches seg,
    resolve_branches r = Ok branches ∧
    (∀ b, b ∈ branches ↔
          b = "master" ∨ ∃ rel : release, rel ∈ releases ∧ rel !! "branch" = Some b) ∧
    trace (process_repo C r st).2 = trace st ++ seg ∧
    cursor_keys seg
    = elements branches ≫= λ b, [vcs_key C (repo_uri r) b; rcs_key C (repo_uri r) b].
Proof.
  intros Hrel. destruct (resolve_branches_listed r releases Hrel)
    as (bs & Hbs & Hmem).
  rewrite process_repo_run, Hbs.
  destruct (vcs_fetch C r); [|done]. destruct (rcs_setup C r); [|done].
  simpl. intros Hok.
  destruct (for_each_branch_cursor_keys C r (elements bs) _ Hok)
    as (seg & Ht & Hk).
  exists bs, (EFetch (repo_uri r) :: seg). split_and!; [done | done | |].
  - rewrite Ht. simpl. by rewrite <- app_assoc.
  - exact Hk.
Qed.

Lemma X19_branches_synchronized_witness :
  repo_releases repo_b = Some [ {[ "branch" := "stable/kilo" ]};
                                {[ "release_name" := "Juno" ]} ] ∧
  (process_repo steady repo_b blank).1 = Ok tt ∧
  ∃ branches seg,
    resolve_branches repo_b = Ok branches ∧
    (∀ b, b ∈ branches ↔
          b = "master" ∨
          ∃ rel : release,
            rel ∈ [ {[ "branch" := "stable/kilo" ]}; {[ "release_name" := "Juno" ]} ]
            ∧ rel !! "branch" = Some b) ∧
    trace (process_repo steady repo_b blank).2 = trace blank ++ seg ∧
    cursor_keys seg
    = elements branches ≫=
        λ b, [vcs_key steady (repo_uri repo_b) b; rcs_key steady (repo_uri repo_b) b].
Proof.
  split; [reflexivity|]. split; [vm_compute; reflexivity|].
  apply (X19_branches_synchronized steady repo_b blank).
  - reflexivity.
  - vm_compute; reflexivity.
Defined.

(** Whether [key] is a cursor of one of the branches of [l]. *)
Lemma cursor_key_dec C uri (l : list string) key :
  {b | b ∈ l ∧ (key = vcs_key C uri b ∨ key = rcs_key C uri b)} +
  {∀ b, b ∈ l → key ≠ vcs_key C uri b ∧ key ≠ rcs_key C uri b}.
Proof.
  induction l as [|a l IH].
  - right. intros b Hb. by apply elem_of_nil in Hb.
  - destruct (decide (key = vcs_key C uri a)) as [Hv|Hv].
    { left. exists a. split; [apply list_elem_of_here | by left]. }
    destruct (decide (key = rcs_key C uri a)) as [Hr|Hr].
    { left. exists a. split; [apply list_elem_of_here | by right]. }
    destruct IH as [(b & Hb & Hkey)|Hnone].
    + left. exists b. split; [by apply list_elem_of_further | done].
    + right. intros b [->|Hb]%elem_of_cons; [done | by apply Hnone].
Qed.

(** X20: cursors are a fixed point.  A pass over a repository that
    follows a pass over the same repository, both returning normally
    and with the adapters reporting the same heads, leaves the
    key-value store as the first pass left it. *)
Theorem X20_second_pass_keeps_cursors (C : collaborators) (r : repo)
    (st : storage) :
  (process_repo C r st).1 = Ok tt →
  (process_repo C r (process_repo C r st).2).1 = Ok tt →
  kv (process_repo C r (process_repo C r st).2).2 = kv (process_repo C r st).2.
Proof.
  rewrite !process_repo_run.
  destruct (vcs_fetch C r); [|done]. destruct (rcs_setup C r); [|done].
  destruct (resolve_branches r) as [bs|e]; [|done]. simpl.
  set (st0 := {| kv := kv st; recs := recs st;
                 trace := trace st ++ [EFetch (repo_uri r)] |}).
  set (st1 := (for_each (elements bs) (process_branch C r) st0).2).
  set (st1' := {| kv := kv st1; recs := recs st1;
                  trace := trace st1 ++ [EFetch (repo_uri r)] |}).
  intros Hok1 Hok2. apply map_eq. intros key.
  destruct (cursor_key_dec C (repo_uri r) (elements bs) key)
    as [(b & Hb & [->| ->])|Hnone].
  - destruct (for_each_branch_sets C r _ st0 Hok1 b Hb) as (id & Hid & Hkv).
    destruct (for_each_branch_sets C r _ st1' Hok2 b Hb) as (id' & Hid' & Hkv').
    fold st1 in Hkv. rewrite Hkv, Hkv'. congruence.
  - destruct (for_each_branch_sets_review C r _ st0 Hok1 b Hb) as (id & Hid & Hkv).
    destruct (for_each_branch_sets_review C r _ st1' Hok2 b Hb)
      as (id' & Hid' & Hkv').
    fold st1 in Hkv. rewrite Hkv, Hkv'. congruence.
  - by rewrite (for_each_branch_frame C r _ st1' key Hnone).
Qed.

Lemma X20_second_pass_keeps_cursors_witness :
  (process_repo steady repo_b blank).1 = Ok tt ∧
  (process_repo steady repo_b (process_repo steady repo_b blank).2).1 = Ok tt ∧
  kv (process_repo steady repo_b (process_repo steady repo_b blank).2).2
  = kv (process_repo steady repo_b blank).2.
Proof.
  split; [vm_compute; reflexivity|]. split; [vm_compute; reflexivity|].
  apply (X20_second_pass_keeps_cursors steady repo_b blank);
    vm_compute; reflexivity.
Defined.

(** ** Programs with a codename *)


(** X21: a program that has a codename gets the group id
    ['<codename>-group'], which is none of the four fixed ids; so on a
    feed in which every program has a codename the four fixed groups
    keep the tag ['project_type']. *)
Theorem X21_codenames_leave_official_groups (content : list (string * info))
    (release_names : list string) (mg : gmap string group) :
  (∀ name i, (name, i) ∈ content → is_Some (info_codename i)) →
  _read_official_programs_yaml (Some content) release_names = Ok mg →
  (∀ name i, (name, i) ∈ content → program_group_id name i ∉ official_ids) ∧
  official_groups_tagged mg.
Proof.
  intros Hcode Hrun.
  assert (∀ name i, (name, i) ∈ content → program_group_id name i ∉ official_ids)
    as Hfree.
  { intros name i Hin Hk. destruct (Hcode name i Hin) as [cn Hcn].
    unfold program_group_id in Hk. rewrite Hcn in Hk.
    by apply (group_suffix_not_official (lower cn) _ Hk). }
  split; [done|]. intros k Hk.
  unfold _read_official_programs_yaml in Hrun.
  destruct (process_programs release_names content initial_groups)
    as [mg0|e] eqn:Hp; [|done].
  injection Hrun as <-. apply tagged_set_ids.
  eapply tagged_process_programs; [| |exact Hp].
  - intros name i Hin. left. intros <-. by apply (Hfree name i Hin).
  - by apply initial_groups_tagged.
Qed.

Lemma X21_codenames_leave_official_groups_witness :
  ∃ mg, _read_official_programs_yaml (Some (compute_feed nova_entry)) ["kilo"]
        = Ok mg ∧
        official_groups_tagged mg.
Proof.
  assert (∃ mg, _read_official_programs_yaml (Some (compute_feed nova_entry))
                  ["kilo"] = Ok mg) as [mg Hrun] by (eexists; reflexivity).
  exists mg. split; [exact Hrun|].
  apply (X21_codenames_leave_official_groups (compute_feed nova_entry) ["kilo"] mg);
    [|exact Hrun].
  intros name i Hin. apply list_elem_of_singleton in Hin. injection Hin as -> ->.
  by eexists.
Defined.

(** ** The entry point *)

Section MainFacts.
Context (C : collaborators).
Context (mps_log : string → storage → nat
                   → result (stream record * gmap string stored)).
Context (days : nat) (default_data_uri corrections_uri now : string).
Context (default_data_process : gmap string (list record) → M unit).
Context (program_list_pass : M unit).

Local Abbreviation run :=
  (main C mps_log days default_data_uri corrections_uri now
     default_data_process program_list_pass).

Lemma main_stamp_is_last st :
  (run st).1 = Ok false →
  ∃ before,
    trace (run st).2
    = before ++ [ESetByKey "runtime_storage_update_time" (SToken now)] ∧
    kv (run st).2 !! "runtime_storage_update_time" = Some (SToken now).
Proof.
  unfold main.
  destruct (read_json_from_uri C default_data_uri) as [doc|]; [|done].
  case_bool_decide; [done|].
  unfold mbind, M_bind.
  destruct (default_data_process doc st) as [[[]|e] st1]; [|done].
  destruct (program_list_pass st1) as [[[]|e] st2]; [|done].
  destruct (update_records C st2) as [[[]|e] st3]; [|done].
  destruct (apply_corrections C corrections_uri st3) as [[[]|e] st4]; [|done].
  destruct (update_members C mps_log days st4) as [[[]|e] st5]; [|done].
  simpl. intros _. exists (trace st5). split; [done|]. apply lookup_insert_eq.
Qed.

Lemma main_stops_at_update_records st doc st1 st2 e st3 :
  read_json_from_uri C default_data_uri = Some doc → doc ≠ ∅ →
  default_data_process doc st = (Ok tt, st1) →
  program_list_pass st1 = (Ok tt, st2) →
  update_records C st2 = (Raise e, st3) →
  run st = (Raise e, st3).
Proof.
  intros Hdoc Hne H1 H2 H3. unfold main. rewrite Hdoc.
  rewrite bool_decide_eq_false_2 by done.
  unfold mbind, M_bind. by rewrite H1, H2, H3.
Qed.

End MainFacts.

(** X22: [main].  Without default data (the document is unreadable or
    empty) it exits with [not 0] and has not touched the storage.  When
    it returns plainly, writing ['runtime_storage_update_time'] was its
    last step.  When [update_records] raises, [main] ends there with
    that exception: no corrections are applied, no member list is
    read and the update time is not written. *)
Theorem X22_main_outcomes (C : collaborators)
    (mps_log : string → storage → nat
                   → result (stream record * gmap string stored)) (days : nat)
    (default_data_uri corrections_uri now : string)
    (default_data_process : gmap string (list record) → M unit)
    (program_list_pass : M unit) (st : storage) :
  let run := main C mps_log days default_data_uri corrections_uri now
               default_data_process program_list_pass in
  (read_json_from_uri C default_data_uri = None ∨
   read_json_from_uri C default_data_uri = Some ∅ →
   run st = (Ok true, st)) ∧
  ((run st).1 = Ok false →
   ∃ before,
     trace (run st).2
     = before ++ [ESetByKey "runtime_storage_update_time" (SToken now)] ∧
     kv (run st).2 !! "runtime_storage_update_time" = Some (SToken now)) ∧
  (∀ doc st1 st2 e st3,
     read_json_from_uri C default_data_uri = Some doc → doc ≠ ∅ →
     default_data_process doc st = (Ok tt, st1) →
     program_list_pass st1 = (Ok tt, st2) →
     update_records C st2 = (Raise e, st3) →
     run st = (Raise e, st3)).
Proof.
  intros run. split_and!.
  - unfold run, main. intros [-> | ->]; [done|].
    by rewrite bool_decide_eq_true_2.
  - apply main_stamp_is_last.
  - intros doc st1 st2 e st3. apply main_stops_at_update_records.
Qed.

Lemma X22_main_outcomes_witness :
  let run := λ C, main C roster 30 "file:///default_data.json"
                    "file:///corrections.json" "1700000000"
                    (λ _, mret tt) (mret tt) in
  (read_json_from_uri steady "file:///default_data.json" = None ∧
   run steady two_repos = (Ok true, two_repos)) ∧
  ((run furnished two_repos).1 = Ok false ∧
   ∃ before,
     trace (run furnished two_repos).2
     = before ++ [ESetByKey "runtime_storage_update_time" (SToken "1700000000")] ∧
     kv (run furnished two_repos).2 !! "runtime_storage_update_time"
     = Some (SToken "1700000000")) ∧
  (update_records furnished_flaky two_repos
     = (Raise (SourceError "fetch failed"), two_repos) ∧
   run furnished_flaky two_repos
     = (Raise (SourceError "fetch failed"), two_repos)).
Proof.
  intros run. split; [|split].
  - split; [reflexivity|].
    apply (proj1 (X22_main_outcomes steady roster 30 "file:///default_data.json"
                    "file:///corrections.json" "1700000000"
                    (λ _, mret tt) (mret tt) two_repos)).
    left. reflexivity.
  - split; [vm_compute; reflexivity|].
    apply (proj1 (proj2 (X22_main_outcomes furnished roster 30
                           "file:///default_data.json"
                           "file:///corrections.json" "1700000000"
                           (λ _, mret tt) (mret tt) two_repos))).
    vm_compute; reflexivity.
  - split; [vm_compute; reflexivity|].
    apply (proj2 (proj2 (X22_main_outcomes furnished_flaky roster 30
                           "file:///default_data.json"
                           "file:///corrections.json" "1700000000"
                           (λ _, mret tt) (mret tt) two_repos))
             {[ "repos" := [] ]} two_repos two_repos
             (SourceError "fetch failed") two_repos).
    + reflexivity.
    + apply insert_non_empty.
    + reflexivity.
    + reflexivity.
    + vm_compute; reflexivity.
Defined.

(** ** Program groups *)


(** X23: in the taxonomy returned for a feed, every program of the feed
    is there as a group under its group id, the lower-cased name or
    ['<codename>-group'], and that group is tagged ['program']. *)
Theorem X23_every_program_is_a_group (content : list (string * info))
    (release_names : list string) (mg : gmap string group)
    (name : string) (i : info) :
  _read_official_programs_yaml (Some content) release_names = Ok mg →
  (name, i) ∈ content →
  ∃ g, mg !! program_group_id name i = Some g ∧
       g_tag g = Some "program" ∧
       g_id g = Some (program_group_id name i).
Proof.
  unfold _read_official_programs_yaml.
  destruct (process_programs release_names content initial_groups)
    as [mg0|e] eqn:Hrun; [|done].
  intros [= <-] Hin.
  assert (tagged (λ t, t = Some "program") (program_group_id name i) mg0) as Ht.
  { revert Hrun Hin. generalize initial_groups.
    induction content as [|[name' i'] content IH]; intros mg1 Hrun Hin.
    - by apply elem_of_nil in Hin.
    - simpl in Hrun.
      destruct (process_program release_names mg1 name' i') as [mg2|e] eqn:Hp;
        [|done].
      apply elem_of_cons in Hin as [[= <- <-]|Hin].
      + eapply tagged_process_programs; [| |exact Hrun].
        * intros ? ? _. right. done.
        * by eapply tagged_program_after.
      + by eapply IH. }
  destruct (tagged_set_ids _ _ _ Ht) as (g & Hg & Htag).
  exists g. split_and!; [done | done | by eapply set_ids_id].
Qed.

Lemma X23_every_program_is_a_group_witness :
  ∃ mg, _read_official_programs_yaml (Some (compute_feed nova_entry)) ["kilo"]
        = Ok mg ∧
    ∃ g, mg !! "nova-group" = Some g ∧
         g_tag g = Some "program" ∧ g_id g = Some "nova-group".
Proof.
  assert (∃ mg, _read_official_programs_yaml (Some (compute_feed nova_entry))
                  ["kilo"] = Ok mg) as [mg Hrun] by (eexists; reflexivity).
  exists mg. split; [exact Hrun|].
  apply (X23_every_program_is_a_group (compute_feed nova_entry) ["kilo"] mg
           "Compute" {| info_codename := Some "Nova";
                        info_projects := Some [nova_entry] |} Hrun).
  apply list_elem_of_here.
Defined.
